(** * arl: measuring the rate limit of a REST API

    A shallow embedding of the two Go files of the tool:
    - [arl.go]: [fetchTokens], [get] and [measureRatelimit];
    - the token source file: [TokenSource], [AzureTokenSource] with its
      methods [Token], [Refresh] and [acquireTokenDeviceCodeFlow].

    Sequential code is embedded as functions, in a small state monad with
    panics where the Go code mutates its receiver.  [measureRatelimit], which
    starts goroutines that talk over channels, is embedded as a labelled
    transition system: one transition per statement (or per group of
    statements no other goroutine can observe), run by an executable
    [step] function. *)

From stdpp Require Import base list numbers strings.
From Stdlib Require Import ZArith Lia.

#[local] Set Warnings "-clear-no-such-hyp".
Local Open Scope Z_scope.

(** ** The part of the Go runtime the program relies on *)

Module Go.

(** Values of the interface type [error].  The constructors are the ways
    in which the program and the libraries it calls build errors. *)
Inductive error : Type :=
| errors_New (msg : string)
| fmt_Errorf (format : string) (arg : error)
| fmt_Errorf2 (format : string) (arg1 : string) (arg2 : error)
| url_Error (op url : string) (err : error)
| lib_error (msg : string).

(** Run-time panics that the statements of the program can raise. *)
Inductive panic : Type :=
| nil_dereference          (* invalid memory address or nil pointer dereference *)
| close_of_closed_channel  (* close of closed channel *)
| send_on_closed_channel   (* send on closed channel *)
| negative_WaitGroup       (* sync: negative WaitGroup counter *)
| makechan_size.           (* makechan: size out of range *)

(** [int] and [uint64] on the platforms the tool is built for. *)
Definition max_int : Z := 2 ^ 63 - 1.
Definition min_int : Z := - 2 ^ 63.
Definition wrap_int (z : Z) : Z := (z + 2 ^ 63) mod 2 ^ 64 - 2 ^ 63.
Definition wrap_uint64 (z : Z) : Z := z mod 2 ^ 64.

(** A computation on a mutable receiver of type [S]: it returns a value
    and the new receiver, or panics, or exhausts the fuel of a loop. *)
Inductive outcome (S A : Type) : Type :=
| Ret (a : A) (s : S)
| Panic (p : panic)
| OutOfFuel.
Arguments Ret {S A} a s.
Arguments Panic {S A} p.
Arguments OutOfFuel {S A}.

Definition M (S A : Type) : Type := S -> outcome S A.

Definition ret {S A} (a : A) : M S A := fun s => Ret a s.
Definition bind {S A B} (m : M S A) (k : A -> M S B) : M S B :=
  fun s => match m s with
           | Ret a s' => k a s'
           | Panic p => Panic p
           | OutOfFuel => OutOfFuel
           end.
Definition raise {S A} (p : panic) : M S A := fun _ => Panic p.
Definition out_of_fuel {S A} : M S A := fun _ => OutOfFuel.
Definition read {S} : M S S := fun s => Ret s s.

End Go.

Notation "x <- m ;; k" := (Go.bind m (fun x => k))
  (at level 20, m at level 99, k at level 200, only parsing).
Notation "' p <- m ;; k" := (Go.bind m (fun x => let p := x in k))
  (at level 20, p pattern, m at level 99, k at level 200, only parsing).

(** ** net/http as [get] uses it *)

Module Http.
Import Go.

Definition StatusOK : Z := 200.
Definition StatusTooManyRequests : Z := 429.
Definition MethodGet : string := "GET".

Record Request := {
  Method : string;
  URL : string;
  Header : list (string * string)
}.

(** The Location header of a response as [Client.Do] reads it: the value
    of [resp.Header.Get("Location")], which is empty when the header is
    absent, and what [req.URL.Parse] makes of that value, an error or the
    URL [u] of the next request. *)
Inductive location : Type :=
| NoLocation
| BadLocation (loc : string) (err : error)
| NextLocation (loc : string) (u : string).

Record Response := {
  StatusCode : Z;
  Location : location
}.

Record Client := {
  Timeout : Z;   (* nanoseconds *)
  CheckRedirect : option (Request -> list Request -> option error)
}.

(** What the transport returns to one call of its [RoundTrip].  How often
    the transport puts the request on the wire in that call is its own
    matter: it sends a GET again when a connection it reuses turns out to
    be closed. *)
Inductive round_trip : Type :=
| RoundTripError (e : error)
| RoundTripResponse (r : Response).

(** What the environment answers to one call of [get]: whether
    [http.NewRequest] rejects the URL, and what the transport returns to
    the successive calls of [RoundTrip] that [client.Do] makes. *)
Record exchange := {
  request_error : option error;
  round_trips : list round_trip
}.

(** The result of [Client.Do]: a response and a nil error, or a non-nil
    error (with the last response when a redirect was refused). *)
Inductive do_result : Type :=
| DoOk (r : Response)
| DoErr (prev : option Response) (e : error).

Definition Header_Set (req : Request) (key value : string) : Request :=
  {| Method := Method req; URL := URL req;
     Header := (key, value) :: filter (fun kv => kv.1 ≠ key) (Header req) |}.

Definition NewRequest (method url : string) (x : exchange) : Request * option error :=
  ({| Method := method; URL := url; Header := [] |}, request_error x).

Definition Header_Get_Location (r : Response) : string :=
  match Location r with
  | NoLocation => ""
  | BadLocation loc _ | NextLocation loc _ => loc
  end.

(** net/http's [redirectBehavior] for a GET request without a body: the
    statuses after which the client goes on to the next request. *)
Definition shouldRedirect (r : Response) : bool :=
  bool_decide (StatusCode r = 301) || bool_decide (StatusCode r = 302)
  || bool_decide (StatusCode r = 303) || bool_decide (StatusCode r = 307)
  || bool_decide (StatusCode r = 308).

Definition defaultCheckRedirect (req : Request) (via : list Request) : option error :=
  if bool_decide (10 ≤ length via)%nat then Some (errors_New "stopped after 10 redirects")
  else None.

Definition checkRedirect (c : Client) : Request -> list Request -> option error :=
  default defaultCheckRedirect (CheckRedirect c).

(** The error [Client.Do] returns when the Location of a redirect does not
    parse; the [url.Error] carries the URL of the request just answered. *)
Definition bad_location (req : Request) (loc : string) (err : error) : do_result :=
  DoErr None
    (url_Error "Get" (URL req)
       (fmt_Errorf2 "failed to parse Location header %q: %v" loc err)).

(** The loop of [Client.Do], as net/http has it today.  After a response
    with a redirect status the client reads the Location header: when it
    is empty the response is returned as it is; when it does not parse,
    an error is returned; otherwise the client asks [CheckRedirect] about
    the next request, and when that returns an error, [Do] returns the
    previous response together with the error wrapped in a [url.Error]
    whose URL is the Location value, and the next request is not issued.
    The second component counts the calls of [RoundTrip].  Left out: the
    sentinel [ErrUseLastResponse], and the Referer and credential headers
    of the next request; the [CheckRedirect] of [get] returns its own
    error and does not look at the request. *)
Fixpoint client_send (c : Client) (req : Request) (via : list Request)
    (answers : list round_trip) : do_result * nat :=
  match answers with
  | [] => (DoErr None (url_Error "Get" (URL req) (lib_error "connection closed")),
           S (length via))
  | RoundTripError e :: _ =>
      (DoErr None (url_Error "Get" (URL req) e), S (length via))
  | RoundTripResponse r :: rest =>
      if shouldRedirect r then
        let loc := Header_Get_Location r in
        if bool_decide (loc = "") then (DoOk r, S (length via))
        else
          match Location r with
          | NoLocation => (DoOk r, S (length via))
          | BadLocation _ err => (bad_location req loc err, S (length via))
          | NextLocation _ u =>
              let next := {| Method := Method req; URL := u; Header := Header req |} in
              match checkRedirect c next (via ++ [req]) with
              | Some e => (DoErr (Some r) (url_Error "Get" loc e), S (length via))
              | None => client_send c next (via ++ [req]) rest
              end
          end
      else (DoOk r, S (length via))
  end.

Definition Client_Do (c : Client) (req : Request) (x : exchange) : do_result * nat :=
  client_send c req [] (round_trips x).

End Http.

(** ** github.com/ccojocar/adal as the token source uses it *)

Module Adal.
Import Go.

Record OAuthConfig := { AuthorityEndpoint : string; TenantID : string }.

(** [Message] is a [*string]. *)
Record DeviceCode := { Message : option string; UserCode : string }.

Record Token := { AccessToken : string; RefreshToken : string }.

(** [ServicePrincipalToken] embeds [Token]. *)
Record ServicePrincipalToken := {
  spt_Token : Token;
  spt_clientID : string;
  spt_resource : string
}.

(** The calls of the library, over a state [world] of the identity
    provider and of the user who completes the device flow.  Pointer
    results are options, [None] being [nil]. *)
Record API (world : Type) := {
  NewOAuthConfig : string -> string -> option OAuthConfig * option error;
  InitiateDeviceAuth :
    OAuthConfig -> string -> string -> world -> (option DeviceCode * option error) * world;
  WaitForUserCompletion :
    DeviceCode -> world -> (option Token * option error) * world;
  NewServicePrincipalTokenFromManualToken :
    OAuthConfig -> string -> string -> Token ->
    option ServicePrincipalToken * option error;
  ServicePrincipalToken_Refresh :
    ServicePrincipalToken -> world -> (ServicePrincipalToken * option error) * world
}.
Arguments NewOAuthConfig {world} _ _ _.
Arguments InitiateDeviceAuth {world} _ _ _ _ _.
Arguments WaitForUserCompletion {world} _ _ _.
Arguments NewServicePrincipalTokenFromManualToken {world} _ _ _ _ _.
Arguments ServicePrincipalToken_Refresh {world} _ _ _.

End Adal.

(** ** The token source *)

Module TokenSrc.
Import Go.

Definition authority : string := "https://login.microsoftonline.com/".

(** The interface [TokenSource]; [T] is the state of the receiver. *)
Class TokenSource (T : Type) := {
  Token : M T (string * option error);
  Refresh : M T (string * option error)
}.

(** The struct [AzureTokenSource]; the mutex has no content of its own. *)
Record AzureTokenSource := {
  oauthConfig : Adal.OAuthConfig;
  clientID : string;
  resource : string;
  spt : option Adal.ServicePrincipalToken
}.

(** The receiver together with what its methods act on: the identity
    provider and the standard output. *)
Record azure (world : Type) := {
  ts : AzureTokenSource;
  idp : world;
  stdout : list string
}.
Arguments ts {world} _.
Arguments idp {world} _.
Arguments stdout {world} _.

Section Azure.
Context {world : Type} (adal : Adal.API world).
(** The package-level variable [resource] of arl.go, which
    [acquireTokenDeviceCodeFlow] passes on in line 87. *)
Variable global_resource : string.

Definition NewAzureTokenSource (tenantID clientID resource : string)
    : option AzureTokenSource * option error :=
  match Adal.NewOAuthConfig adal authority tenantID with
  | (_, Some err) => (None, Some err)
  | (None, None) => (None, None)   (* unreachable in adal; the dereference would panic *)
  | (Some oauthConfig, None) =>
      (Some {| oauthConfig := oauthConfig; clientID := clientID;
               resource := resource; spt := None |}, None)
  end.

Definition set_spt (p : option Adal.ServicePrincipalToken) : M (azure world) unit :=
  fun s =>
    Ret tt {| ts := {| oauthConfig := oauthConfig (ts s); clientID := clientID (ts s);
                       resource := resource (ts s); spt := p |};
              idp := idp s; stdout := stdout s |}.

Definition call {A} (f : world -> A * world) : M (azure world) A :=
  fun s => let '(a, w) := f (idp s) in
           Ret a {| ts := ts s; idp := w; stdout := stdout s |}.

Definition Println (line : string) : M (azure world) unit :=
  fun s => Ret tt {| ts := ts s; idp := idp s; stdout := stdout s ++ [line] |}.

(** The dereference [*p]. *)
Definition deref {S A} (p : option A) : M S A :=
  match p with Some a => ret a | None => raise nil_dereference end.

Definition acquireTokenDeviceCodeFlow
    : M (azure world) (option Adal.ServicePrincipalToken * option error) :=
  s <- read ;;
  '(deviceCode, err) <-
    call (Adal.InitiateDeviceAuth adal (oauthConfig (ts s)) (clientID (ts s))
            (resource (ts s))) ;;
  match err with
  | Some err => ret (None, Some (fmt_Errorf "Failed to start device auth flow: %s" err))
  | None =>
      deviceCode <- deref deviceCode ;;
      message <- deref (Adal.Message deviceCode) ;;
      'tt <- Println message ;;
      '(token, err) <- call (Adal.WaitForUserCompletion adal deviceCode) ;;
      match err with
      | Some err =>
          ret (None, Some (fmt_Errorf "Failed to finish device auth flow: %s" err))
      | None =>
          token <- deref token ;;
          ret (Adal.NewServicePrincipalTokenFromManualToken adal
                 (oauthConfig (ts s)) (clientID (ts s)) global_resource token)
      end
  end.

(** [Token]: lines 44-50. *)
Definition AzureTokenSource_Token : M (azure world) (string * option error) :=
  '(p, err) <- acquireTokenDeviceCodeFlow ;;
  'tt <- set_spt p ;;
  p <- deref p ;;
  ret (Adal.AccessToken (Adal.spt_Token p), err).

(** [Refresh]: lines 53-61. *)
Definition AzureTokenSource_Refresh : M (azure world) (string * option error) :=
  s <- read ;;
  match spt (ts s) with
  | None =>
      ret ("", Some (errors_New
             "service principal token is nil. call Token() before Refresh()"))
  | Some p =>
      '(p, err) <- call (Adal.ServicePrincipalToken_Refresh adal p) ;;
      'tt <- set_spt (Some p) ;;
      ret (Adal.AccessToken (Adal.spt_Token p), err)
  end.

#[export] Instance AzureTokenSource_TokenSource : TokenSource (azure world) := {
  Token := AzureTokenSource_Token;
  Refresh := AzureTokenSource_Refresh
}.

End Azure.

(** A token source that records the calls made on it. *)
Inductive method : Type := CallToken | CallRefresh.

Definition record_call {T A} (c : method) (m : M T A) : M (T * list method) A :=
  fun s => match m s.1 with
           | Ret a t => Ret a (t, s.2 ++ [c])
           | Panic p => Panic p
           | OutOfFuel => OutOfFuel
           end.

Definition recording `(TokenSource T) : TokenSource (T * list method) := {|
  Token := record_call CallToken Token;
  Refresh := record_call CallRefresh Refresh
|}.

End TokenSrc.

(** ** arl.go: the probe executor *)

Module Arl.
Import Go Http.

Definition minute : Z := 60 * 1000000000.

(** [get], with the number of calls of [RoundTrip] it has made. *)
Definition get_calls (URL token : string) (x : exchange) : (Z * option error) * nat :=
  let client :=
    {| Timeout := minute * 10;
       CheckRedirect := Some (fun req via => Some (errors_New "redirect not allowed")) |} in
  let '(req, err) := NewRequest MethodGet URL x in
  match err with
  | Some err => ((0, Some err), 0%nat)
  | None =>
      let req := Header_Set req "Authorization" ("Bearer " +:+ token) in
      match Client_Do client req x with
      | (DoErr _ err, n) => ((0, Some err), n)
      | (DoOk resp, n) => ((StatusCode resp, None), n)
      end
  end.

Definition get (URL token : string) (x : exchange) : Z * option error :=
  (get_calls URL token x).1.

(** ** arl.go: acquiring the tokens *)

Section fetchTokens.
Import TokenSrc.
Context {T : Type} (tokenSource : TokenSource T).

(** The loop of lines 48-54, at its test; [fuel] bounds the number
    of turns.  [i++] wraps around like Go's [int]. *)
Fixpoint fetchTokens_loop (fuel : nat) (i num : Z) (tokens : list string)
    : M T (list string * option error) :=
  if bool_decide (i ≤ num) then
    match fuel with
    | O => out_of_fuel
    | S fuel =>
        '(token, err) <- Refresh ;;
        match err with
        | Some err => ret ([], Some err)
        | None => fetchTokens_loop fuel (wrap_int (i + 1)) num (tokens ++ [token])
        end
    end
  else ret (tokens, None).

Definition fetchTokens (fuel : nat) (num : Z) : M T (list string * option error) :=
  '(token, err) <- Token ;;
  match err with
  | Some err => ret ([], Some err)
  | None => fetchTokens_loop fuel 2 num ([] ++ [token])
  end.

End fetchTokens.

(** ** arl.go: the rate-limit engine *)

Record ratelimitProbe := { probe_URL : string; probe_token : string }.

(** Where a worker goroutine (lines 98-110) stands. *)
Inductive worker : Type :=
| WRange                         (* at [range ratelimitProbes], waiting for a probe *)
| WGet (probe : ratelimitProbe)  (* inside [get(probe.URL, probe.token)] *)
| WSendErr (err : error)         (* blocked in [errorChan <- err] *)
| WDone                          (* about to call [wg.Done()] *)
| WExit.                         (* the range loop has ended: goroutine finished *)

(** Where the goroutine that runs [measureRatelimit] stands. *)
Inductive dispatcher : Type :=
| DStart                         (* line 87, before the channels are made *)
| DSpawn (i : Z)                 (* at the test of the loop of lines 96-111 *)
| DSelect                        (* at the [select] of line 114 *)
| DSend                          (* in [default], at the send of line 131 *)
| DLimit (end_ : Z)              (* in [case <-ratelimitReached], before line 118 *)
| DWait                          (* out of the loop, in the deferred [wg.Wait()] *)
| DReturned.                     (* [measureRatelimit] has returned *)

(** The three messages of [measureRatelimit].  The first one prints the
    quotient [float64(currentNumReqs)/ratelimitDuration.Seconds()]; the
    log line keeps its two operands. *)
Inductive log_line : Type :=
| LogRateLimitReached (currentNumReqs : Z) (ratelimitDuration : Z)
| LogAborting
| LogProbeFailed (probeErr : error).

(** The shared memory of a run and the place of each goroutine in its
    code.  A channel of [struct{}] that is only ever closed is a flag; the
    unbuffered [errorChan] is the queue of the goroutines blocked in a send
    on it, in arrival order.  The last three fields are history variables:
    the number of probes sent on [ratelimitProbes], the number of calls of
    [get] that have returned, and the errors these calls returned. *)
Record state := {
  ratelimitProbes : list ratelimitProbe;   (* the buffer of the channel *)
  probes_closed : bool;                    (* [ratelimitProbes] is closed *)
  ratelimitReached : bool;                 (* [ratelimitReached] is closed *)
  errorChan : list (nat * error);          (* blocked senders and their values *)
  abort : bool;                            (* [abort] is closed *)
  numReqs : Z;
  wg : Z;                                  (* the counter of the WaitGroup *)
  start : Z;
  main : dispatcher;
  workers : list worker;
  now : Z;                                 (* the wall clock, in nanoseconds *)
  output : list log_line;                  (* what has been logged *)
  panicked : option panic;                 (* the panic that stopped the process *)
  dispatched : nat;
  executed : nat;
  observed : list error
}.

Definition set_ratelimitProbes (v : list ratelimitProbe) (s : state) : state :=
  {| ratelimitProbes := v; probes_closed := probes_closed s;
     ratelimitReached := ratelimitReached s; errorChan := errorChan s;
     abort := abort s; numReqs := numReqs s; wg := wg s; start := start s;
     main := main s; workers := workers s; now := now s; output := output s;
     panicked := panicked s; dispatched := dispatched s; executed := executed s;
     observed := observed s |}.

Definition set_probes_closed (v : bool) (s : state) : state :=
  {| ratelimitProbes := ratelimitProbes s; probes_closed := v;
     ratelimitReached := ratelimitReached s; errorChan := errorChan s;
     abort := abort s; numReqs := numReqs s; wg := wg s; start := start s;
     main := main s; workers := workers s; now := now s; output := output s;
     panicked := panicked s; dispatched := dispatched s; executed := executed s;
     observed := observed s |}.

Definition set_ratelimitReached (v : bool) (s : state) : state :=
  {| ratelimitProbes := ratelimitProbes s; probes_closed := probes_closed s;
     ratelimitReached := v; errorChan := errorChan s; abort := abort s;
     numReqs := numReqs s; wg := wg s; start := start s; main := main s;
     workers := workers s; now := now s; output := output s; panicked := panicked s;
     dispatched := dispatched s; executed := executed s; observed := observed s |}.

Definition set_errorChan (v : list (nat * error)) (s : state) : state :=
  {| ratelimitProbes := ratelimitProbes s; probes_closed := probes_closed s;
     ratelimitReached := ratelimitReached s; errorChan := v; abort := abort s;
     numReqs := numReqs s; wg := wg s; start := start s; main := main s;
     workers := workers s; now := now s; output := output s; panicked := panicked s;
     dispatched := dispatched s; executed := executed s; observed := observed s |}.

Definition set_abort (v : bool) (s : state) : state :=
  {| ratelimitProbes := ratelimitProbes s; probes_closed := probes_closed s;
     ratelimitReached := ratelimitReached s; errorChan := errorChan s; abort := v;
     numReqs := numReqs s; wg := wg s; start := start s; main := main s;
     workers := workers s; now := now s; output := output s; panicked := panicked s;
     dispatched := dispatched s; executed := executed s; observed := observed s |}.

Definition set_numReqs (v : Z) (s : state) : state :=
  {| ratelimitProbes := ratelimitProbes s; probes_closed := probes_closed s;
     ratelimitReached := ratelimitReached s; errorChan := errorChan s;
     abort := abort s; numReqs := v; wg := wg s; start := start s; main := main s;
     workers := workers s; now := now s; output := output s; panicked := panicked s;
     dispatched := dispatched s; executed := executed s; observed := observed s |}.

Definition set_wg (v : Z) (s : state) : state :=
  {| ratelimitProbes := ratelimitProbes s; probes_closed := probes_closed s;
     ratelimitReached := ratelimitReached s; errorChan := errorChan s;
     abort := abort s; numReqs := numReqs s; wg := v; start := start s;
     main := main s; workers := workers s; now := now s; output := output s;
     panicked := panicked s; dispatched := dispatched s; executed := executed s;
     observed := observed s |}.

Definition set_start (v : Z) (s : state) : state :=
  {| ratelimitProbes := ratelimitProbes s; probes_closed := probes_closed s;
     ratelimitReached := ratelimitReached s; errorChan := errorChan s;
     abort := abort s; numReqs := numReqs s; wg := wg s; start := v; main := main s;
     workers := workers s; now := now s; output := output s; panicked := panicked s;
     dispatched := dispatched s; executed := executed s; observed := observed s |}.

Definition set_main (v : dispatcher) (s : state) : state :=
  {| ratelimitProbes := ratelimitProbes s; probes_closed := probes_closed s;
     ratelimitReached := ratelimitReached s; errorChan := errorChan s;
     abort := abort s; numReqs := numReqs s; wg := wg s; start := start s; main := v;
     workers := workers s; now := now s; output := output s; panicked := panicked s;
     dispatched := dispatched s; executed := executed s; observed := observed s |}.

Definition set_workers (v : list worker) (s : state) : state :=
  {| ratelimitProbes := ratelimitProbes s; probes_closed := probes_closed s;
     ratelimitReached := ratelimitReached s; errorChan := errorChan s;
     abort := abort s; numReqs := numReqs s; wg := wg s; start := start s;
     main := main s; workers := v; now := now s; output := output s;
     panicked := panicked s; dispatched := dispatched s; executed := executed s;
     observed := observed s |}.

Definition set_now (v : Z) (s : state) : state :=
  {| ratelimitProbes := ratelimitProbes s; probes_closed := probes_closed s;
     ratelimitReached := ratelimitReached s; errorChan := errorChan s;
     abort := abort s; numReqs := numReqs s; wg := wg s; start := start s;
     main := main s; workers := workers s; now := v; output := output s;
     panicked := panicked s; dispatched := dispatched s; executed := executed s;
     observed := observed s |}.

Definition set_output (v : list log_line) (s : state) : state :=
  {| ratelimitProbes := ratelimitProbes s; probes_closed := probes_closed s;
     ratelimitReached := ratelimitReached s; errorChan := errorChan s;
     abort := abort s; numReqs := numReqs s; wg := wg s; start := start s;
     main := main s; workers := workers s; now := now s; output := v;
     panicked := panicked s; dispatched := dispatched s; executed := executed s;
     observed := observed s |}.

Definition set_panicked (v : option panic) (s : state) : state :=
  {| ratelimitProbes := ratelimitProbes s; probes_closed := probes_closed s;
     ratelimitReached := ratelimitReached s; errorChan := errorChan s;
     abort := abort s; numReqs := numReqs s; wg := wg s; start := start s;
     main := main s; workers := workers s; now := now s; output := output s;
     panicked := v; dispatched := dispatched s; executed := executed s;
     observed := observed s |}.

Definition set_dispatched (v : nat) (s : state) : state :=
  {| ratelimitProbes := ratelimitProbes s; probes_closed := probes_closed s;
     ratelimitReached := ratelimitReached s; errorChan := errorChan s;
     abort := abort s; numReqs := numReqs s; wg := wg s; start := start s;
     main := main s; workers := workers s; now := now s; output := output s;
     panicked := panicked s; dispatched := v; executed := executed s;
     observed := observed s |}.

Definition set_executed (v : nat) (s : state) : state :=
  {| ratelimitProbes := ratelimitProbes s; probes_closed := probes_closed s;
     ratelimitReached := ratelimitReached s; errorChan := errorChan s;
     abort := abort s; numReqs := numReqs s; wg := wg s; start := start s;
     main := main s; workers := workers s; now := now s; output := output s;
     panicked := panicked s; dispatched := dispatched s; executed := v;
     observed := observed s |}.

Definition set_observed (v : list error) (s : state) : state :=
  {| ratelimitProbes := ratelimitProbes s; probes_closed := probes_closed s;
     ratelimitReached := ratelimitReached s; errorChan := errorChan s;
     abort := abort s; numReqs := numReqs s; wg := wg s; start := start s;
     main := main s; workers := workers s; now := now s; output := output s;
     panicked := panicked s; dispatched := dispatched s; executed := executed s;
     observed := v |}.

(** The transitions.  [Get i x] is the return of the call of [get] in
    worker [i], answered by the environment with [x]; [SelectLimit],
    [SelectAbort], [SelectError] and [SelectDefault] are the four ways
    out of the [select]; [CloseAbort] is the [close(abort)] of [main];
    [Tick d] lets [d] nanoseconds pass. *)
Inductive label : Type :=
| Tick (d : Z)
| CloseAbort
| Start
| Spawn
| SelectLimit
| SelectAbort
| SelectError
| SelectDefault
| Send
| Swap
| Wait
| Receive (i : nat)
| Get (i : nat) (x : exchange)
| Done (i : nat).

(** The labels of the goroutine of [measureRatelimit] itself. *)
Definition of_main (l : label) : bool :=
  match l with
  | Start | Spawn | SelectLimit | SelectAbort | SelectError | SelectDefault
  | Send | Swap | Wait => true
  | _ => false
  end.

Definition crash (p : panic) (s : state) : state := set_panicked (Some p) s.

(** [close(ratelimitProbes)] *)
Definition close_probes (s : state) : state :=
  if probes_closed s then crash close_of_closed_channel s
  else set_probes_closed true s.

(** [close(ratelimitReached)] *)
Definition close_reached (s : state) : state :=
  if ratelimitReached s then crash close_of_closed_channel s
  else set_ratelimitReached true s.

Definition set_worker (i : nat) (w : worker) (s : state) : state :=
  set_workers (<[i := w]> (workers s)) s.

(** [make(chan ratelimitProbe, size)]: the runtime's [makechan] panics when
    the size is negative, or when a buffer of [size] probes, two strings of
    16 bytes each, exceeds [maxAlloc] less the header of the channel.  The
    constants are those of linux/amd64, with the channel header of 96
    bytes that the runtime has had up to Go 1.22.  A buffer that passes
    the test is taken to be allocated. *)
Definition maxAlloc : Z := 2 ^ 48.
Definition hchanSize : Z := 96.
Definition sizeof_ratelimitProbe : Z := 32.

Definition makechan_panics (size : Z) : bool :=
  bool_decide (size < 0)
  || bool_decide (maxAlloc - hchanSize < sizeof_ratelimitProbe * size).

Section measureRatelimit.
Variables (URL token : string) (parallelRequests : Z).

(** Lines 87-95. *)
Definition step_Start (s : state) : option state :=
  match main s with
  | DStart =>
      if makechan_panics parallelRequests then Some (crash makechan_size s)
      else Some (set_main (DSpawn 0) (set_start (now s) s))
  | _ => None
  end.

(** One turn of the loop of lines 96-111: [wg.Add(1)] and the [go]
    statement, or the exit to the dispatch loop. *)
Definition step_Spawn (s : state) : option state :=
  match main s with
  | DSpawn i =>
      if bool_decide (i < parallelRequests) then
        Some (set_main (DSpawn (i + 1))
               (set_workers (workers s ++ [WRange]) (set_wg (wg s + 1) s)))
      else Some (set_main DSelect s)
  | _ => None
  end.

(** Lines 115-117: the receive on the closed [ratelimitReached]. *)
Definition step_SelectLimit (s : state) : option state :=
  match main s with
  | DSelect =>
      if ratelimitReached s then Some (set_main (DLimit (now s)) (close_probes s))
      else None
  | _ => None
  end.

(** Lines 118-121, and the deferred call that follows the [return]. *)
Definition step_Swap (s : state) : option state :=
  match main s with
  | DLimit end_ =>
      let currentNumReqs := numReqs s in
      let ratelimitDuration := end_ - start s in
      Some (set_main DWait
             (set_output (output s ++ [LogRateLimitReached currentNumReqs ratelimitDuration])
               (set_numReqs 0 s)))
  | _ => None
  end.

(** Lines 122-125. *)
Definition step_SelectAbort (s : state) : option state :=
  match main s with
  | DSelect =>
      if abort s then
        Some (set_main DWait (set_output (output s ++ [LogAborting]) (close_probes s)))
      else None
  | _ => None
  end.

(** Lines 126-129: the receive takes the value of the sender that has
    waited longest and lets that sender go on. *)
Definition step_SelectError (s : state) : option state :=
  match main s, errorChan s with
  | DSelect, (i, probeErr) :: rest =>
      Some (set_main DWait
             (set_output (output s ++ [LogProbeFailed probeErr])
               (close_probes (set_worker i WDone (set_errorChan rest s)))))
  | _, _ => None
  end.

(** Line 130: [default] is taken when no other case can proceed. *)
Definition step_SelectDefault (s : state) : option state :=
  match main s, errorChan s with
  | DSelect, [] =>
      if ratelimitReached s || abort s then None else Some (set_main DSend s)
  | _, _ => None
  end.

(** Line 131: a plain send; it waits while the buffer is full. *)
Definition step_Send (s : state) : option state :=
  match main s with
  | DSend =>
      if probes_closed s then Some (crash send_on_closed_channel s)
      else if bool_decide (Z.of_nat (length (ratelimitProbes s)) < parallelRequests) then
        Some (set_main DSelect
               (set_dispatched (S (dispatched s))
                 (set_ratelimitProbes
                    (ratelimitProbes s ++ [{| probe_URL := URL; probe_token := token |}]) s)))
      else None
  | _ => None
  end.

(** The deferred [wg.Wait()] of line 93. *)
Definition step_Wait (s : state) : option state :=
  match main s with
  | DWait => if bool_decide (wg s = 0) then Some (set_main DReturned s) else None
  | _ => None
  end.

(** Line 99: the receive of the [range] loop. *)
Definition step_Receive (i : nat) (s : state) : option state :=
  match workers s !! i with
  | Some WRange =>
      match ratelimitProbes s with
      | probe :: rest => Some (set_worker i (WGet probe) (set_ratelimitProbes rest s))
      | [] => if probes_closed s then Some (set_worker i WExit s) else None
      end
  | _ => None
  end.

(** Lines 100-107. *)
Definition step_Get (i : nat) (x : exchange) (s : state) : option state :=
  match workers s !! i with
  | Some (WGet probe) =>
      let s := set_executed (S (executed s)) s in
      match get (probe_URL probe) (probe_token probe) x with
      | (_, Some err) =>
          Some (set_worker i (WSendErr err)
                 (set_errorChan (errorChan s ++ [(i, err)])
                   (set_observed (observed s ++ [err]) s)))
      | (httpStatus, None) =>
          if bool_decide (httpStatus = StatusOK) then
            Some (set_worker i WDone (set_numReqs (wrap_uint64 (numReqs s + 1)) s))
          else if bool_decide (httpStatus = StatusTooManyRequests) then
            Some (set_worker i WDone (close_reached s))
          else Some (set_worker i WDone s)
      end
  | _ => None
  end.

(** Line 108: [wg.Done()] panics when the counter becomes negative. *)
Definition step_Done (i : nat) (s : state) : option state :=
  match workers s !! i with
  | Some WDone =>
      if bool_decide (wg s - 1 < 0) then Some (crash negative_WaitGroup (set_wg (wg s - 1) s))
      else Some (set_worker i WRange (set_wg (wg s - 1) s))
  | _ => None
  end.

(** One transition; [None] when the statement cannot proceed.  A panic
    stops every goroutine. *)
Definition step (l : label) (s : state) : option state :=
  if bool_decide (is_Some (panicked s)) then None else
  match l with
  | Tick d => if bool_decide (0 ≤ d) then Some (set_now (now s + d) s) else None
  | CloseAbort => if abort s then None else Some (set_abort true s)
  | Start => step_Start s
  | Spawn => step_Spawn s
  | SelectLimit => step_SelectLimit s
  | SelectAbort => step_SelectAbort s
  | SelectError => step_SelectError s
  | SelectDefault => step_SelectDefault s
  | Send => step_Send s
  | Swap => step_Swap s
  | Wait => step_Wait s
  | Receive i => step_Receive i s
  | Get i x => step_Get i x s
  | Done i => step_Done i s
  end.

Fixpoint exec (ls : list label) (s : state) : option state :=
  match ls with
  | [] => Some s
  | l :: ls => match step l s with Some s' => exec ls s' | None => None end
  end.

(** [s'] can be reached from [s]. *)
Definition reaches (s s' : state) : Prop := exists ls, exec ls s = Some s'.

End measureRatelimit.

(** The state in which [measureRatelimit] is called, at time [t0];
    [aborted] tells whether [abort] has been closed already. *)
Definition init (aborted : bool) (t0 : Z) : state :=
  {| ratelimitProbes := []; probes_closed := false; ratelimitReached := false;
     errorChan := []; abort := aborted; numReqs := 0; wg := 0; start := 0;
     main := DStart; workers := []; now := t0; output := []; panicked := None;
     dispatched := 0; executed := 0; observed := [] |}.

End Arl.

(** ** arl.go: [init] and [main] *)

Module ArlMain.
Import Go TokenSrc Arl.

(** The fields of [url.URL] that [main] reads. *)
Record URL_ := { Scheme : string; Host : string }.

(** The calls of [log.Fatal] and [log.Fatalf], which end the process. *)
Inductive fatal : Type :=
| Fatal (message : string)
| Fatalf (format : string) (args : list Z) (err : error).

Section main.
Context {world : Type} (adal : Adal.API world).
(** [url.ParseRequestURI] *)
Variable ParseRequestURI : string -> option URL_ * option error.
(** The flags, as [flag.Parse] has set them. *)
Variables (resource tenantID clientID : string) (numTokens parallelRequests : Z).

(** The check of [init], lines 34-36. *)
Definition init : option fatal :=
  if bool_decide (numTokens < 1) then
    Some (Fatal "number of tokens requested for a use must be at least 1")
  else None.

(** [main] up to line 152: it ends the process with a fatal message or
    goes on with the tokens.  The state is that of the identity provider
    and the standard output. *)
Definition main_tokens (fuel : nat) : M (world * list string) (fatal + list string) :=
  match ParseRequestURI resource with
  | (_, Some err) => ret (inl (Fatalf "failed to parse the resource URL: %v" [] err))
  | (None, None) => raise nil_dereference
  | (Some resourceURL, None) =>
      let authority := Scheme resourceURL +:+ "//" +:+ Host resourceURL +:+ "/" in
      match NewAzureTokenSource adal tenantID clientID authority with
      | (_, Some err) => ret (inl (Fatalf "failed to create the token source: %v" [] err))
      | (None, None) => raise nil_dereference
      | (Some azureTokenSource, None) =>
          fun st =>
            match fetchTokens (AzureTokenSource_TokenSource adal resource) fuel numTokens
                    {| ts := azureTokenSource; idp := st.1; stdout := st.2 |} with
            | Ret (_, Some err) s =>
                Ret (inl (Fatalf "failed to acquire %d tokens: %v" [numTokens] err))
                  (idp s, stdout s)
            | Ret (tokens, None) s => Ret (inr tokens) (idp s, stdout s)
            | Panic p => Panic p
            | OutOfFuel => OutOfFuel
            end
      end
  end.

(** The arguments of the calls of [measureRatelimit] that the loop of
    lines 160-166 starts, one goroutine per token. *)
Definition main_runs (tokens : list string) : list (string * string * Z) :=
  (fun token => (resource, token, parallelRequests)) <$> tokens.

(** *** The goroutines of [main], lines 155-176 *)

(** A goroutine started in line 162: the token it measures with, the
    state of its call of [measureRatelimit], and whether it has called
    [wg.Done()] in line 164. *)
Record run := { run_token : string; run_state : state; run_done : bool }.

(** Where [main] stands. *)
Inductive main_pc : Type :=
| MRange (rest : list string)    (* in the loop of lines 160-166 *)
| MInterrupt                     (* blocked in [<-interrupt], line 169 *)
| MWait                          (* in [wg.Wait()], line 176 *)
| MExit.                         (* [main] has returned: the process is over *)

Record program := {
  runs : list run;
  pc : main_pc;
  main_wg : Z;                   (* the counter of the WaitGroup of [main] *)
  interrupt : bool;              (* a signal is buffered in [interrupt] *)
  clock : Z;
  main_log : list string;
  crashed : option panic
}.

(** What can happen: the system delivers an interrupt, time passes,
    [main] goes on, or one of its goroutines does. *)
Inductive event : Type :=
| Signal
| Elapse (d : Z)
| Go                             (* a turn of the loop of lines 160-166 *)
| Interrupted                    (* lines 169-173 *)
| Waited                         (* line 176 *)
| Run (k : nat) (l : label)      (* a transition of [measureRatelimit] *)
| Finished (k : nat).            (* line 164 *)

(** The transitions of [measureRatelimit] that are its own: the clock
    and the close of [abort] belong to the program around it. *)
Definition internal (l : label) : bool :=
  match l with
  | Tick _ | CloseAbort => false
  | _ => true
  end.

Definition on_state (f : state -> state) (r : run) : run :=
  {| run_token := run_token r; run_state := f (run_state r); run_done := run_done r |}.

Definition main_step (e : event) (p : program) : option program :=
  if bool_decide (is_Some (crashed p)) then None else
  match pc p with
  | MExit => None
  | _ =>
  match e with
  | Signal =>
      Some {| runs := runs p; pc := pc p; main_wg := main_wg p; interrupt := true;
              clock := clock p; main_log := main_log p; crashed := crashed p |}
  | Elapse d =>
      if bool_decide (0 ≤ d) then
        Some {| runs := on_state (fun s => set_now (now s + d) s) <$> runs p;
                pc := pc p; main_wg := main_wg p; interrupt := interrupt p;
                clock := clock p + d; main_log := main_log p; crashed := crashed p |}
      else None
  | Go =>
      match pc p with
      | MRange (token :: rest) =>
          Some {| runs := runs p ++ [{| run_token := token;
                                        run_state := Arl.init false (clock p);
                                        run_done := false |}];
                  pc := MRange rest; main_wg := main_wg p + 1;
                  interrupt := interrupt p; clock := clock p;
                  main_log := main_log p; crashed := crashed p |}
      | MRange [] =>
          Some {| runs := runs p; pc := MInterrupt; main_wg := main_wg p;
                  interrupt := interrupt p; clock := clock p;
                  main_log := main_log p; crashed := crashed p |}
      | _ => None
      end
  | Interrupted =>
      match pc p with
      | MInterrupt =>
          if interrupt p then
            Some {| runs := on_state (set_abort true) <$> runs p; pc := MWait;
                    main_wg := main_wg p; interrupt := false; clock := clock p;
                    main_log :=
                      main_log p ++ ["Waiting for rate limit probes to complete..."];
                    crashed := crashed p |}
          else None
      | _ => None
      end
  | Waited =>
      match pc p with
      | MWait =>
          if bool_decide (main_wg p = 0) then
            Some {| runs := runs p; pc := MExit; main_wg := main_wg p;
                    interrupt := interrupt p; clock := clock p;
                    main_log := main_log p; crashed := crashed p |}
          else None
      | _ => None
      end
  | Run k l =>
      match runs p !! k with
      | Some r =>
          if internal l then
            match step resource (run_token r) parallelRequests l (run_state r) with
            | Some s =>
                Some {| runs := <[k := on_state (fun _ => s) r]> (runs p); pc := pc p;
                        main_wg := main_wg p; interrupt := interrupt p;
                        clock := clock p; main_log := main_log p;
                        crashed := panicked s |}
            | None => None
            end
          else None
      | None => None
      end
  | Finished k =>
      match runs p !! k with
      | Some r =>
          match main (run_state r), run_done r with
          | DReturned, false =>
              Some {| runs := <[k := {| run_token := run_token r;
                                        run_state := run_state r;
                                        run_done := true |}]> (runs p);
                      pc := pc p; main_wg := main_wg p - 1;
                      interrupt := interrupt p; clock := clock p;
                      main_log := main_log p;
                      crashed := if bool_decide (main_wg p - 1 < 0)
                                 then Some negative_WaitGroup else None |}
          | _, _ => None
          end
      | None => None
      end
  end
  end.

Fixpoint main_exec (es : list event) (p : program) : option program :=
  match es with
  | [] => Some p
  | e :: es => match main_step e p with Some p' => main_exec es p' | None => None end
  end.

(** [main] at line 158, with the tokens it has fetched. *)
Definition boot (tokens : list string) (t0 : Z) : program :=
  {| runs := []; pc := MRange tokens; main_wg := 0; interrupt := false; clock := t0;
     main_log := []; crashed := None |}.

End main.

End ArlMain.

(** * What the properties are stated with *)

Module Run.
Import Go Http Arl.

(** The dispatch loop has not been left yet. *)
Definition looping (d : dispatcher) : bool :=
  match d with
  | DStart | DSpawn _ | DSelect | DSend => true
  | _ => false
  end.

(** The loop has been left through one of the three [return]s. *)
Definition left_loop (d : dispatcher) : bool :=
  match d with
  | DWait | DReturned => true
  | _ => false
  end.



(** The operands of the throughput a log line reports, if it reports one. *)
Definition throughput_of (line : log_line) : option (Z * Z) :=
  match line with
  | LogRateLimitReached currentNumReqs ratelimitDuration =>
      Some (currentNumReqs, ratelimitDuration)
  | _ => None
  end.

(** What makes a log line true of a state: the signal it reports has
    been raised, and a reported error is the first one a worker got. *)
Definition justified (s : state) (line : log_line) : Prop :=
  match line with
  | LogRateLimitReached _ _ => ratelimitReached s = true
  | LogAborting => abort s = true
  | LogProbeFailed probeErr => head (observed s) = Some probeErr
  end.

(** What holds of every state of a run of [measureRatelimit]. *)
Record run_inv (s : state) : Prop := {
  inv_loop : looping (main s) = true -> probes_closed s = false /\ output s = [];
  inv_limit : forall end_, main s = DLimit end_ ->
    output s = [] /\ ratelimitReached s = true /\ start s ≤ end_ ≤ now s;
  inv_left : left_loop (main s) = true ->
    exists line, output s = [line] /\ justified s line;
  inv_errors : output s = [] -> (errorChan s).*2 = observed s;
  inv_time : main s ≠ DStart -> start s ≤ now s
}.

(** The client would go on to the next request after this response: it
    has a redirect status and a Location header that is not empty. *)
Definition followed (r : Response) : bool :=
  shouldRedirect r && negb (bool_decide (Header_Get_Location r = "")).

(** A response of the redirection class. *)
Definition is_redirect (r : Response) : Prop := 300 ≤ StatusCode r < 400.

(** Worker [i] has gone from [s] to [s'] by starting to send [err] on
    [errorChan], the transport error of the spec: it stands in the send,
    and neither the counter nor the limit signal has changed. *)
Definition sends (i : nat) (err : error) (s s' : state) : Prop :=
  workers s' !! i = Some (WSendErr err) /\
  errorChan s' = errorChan s ++ [(i, err)] /\
  numReqs s' = numReqs s /\ ratelimitReached s' = ratelimitReached s /\
  panicked s' = None.


(** The answers of a server that replies with [status], and of a network
    that is down. *)
Definition answer (status : Z) : exchange :=
  {| request_error := None;
     round_trips :=
       [RoundTripResponse {| StatusCode := status; Location := NoLocation |}] |}.

Definition unreachable : exchange :=
  {| request_error := None;
     round_trips := [RoundTripError (lib_error "connection refused")] |}.

(** A worker that holds no probe. *)
Definition idle (w : worker) : Prop := w = WRange \/ w = WExit.

(** What holds of every state of a run that was called with [abort]
    closed already.  Such a run can only panic in [makechan], at the
    start. *)
Record aborted_inv (parallelRequests : Z) (s : state) : Prop := {
  ab_abort : abort s = true;
  ab_reached : ratelimitReached s = false;
  ab_errors : errorChan s = [];
  ab_probes : ratelimitProbes s = [];
  ab_dispatched : dispatched s = 0%nat;
  ab_executed : executed s = 0%nat;
  ab_running : main s ≠ DStart -> panicked s = None;
  ab_workers : Forall idle (workers s);
  ab_main :
    match main s with
    | DStart => output s = [] /\ probes_closed s = false /\ wg s = 0
    | DSpawn i =>
        output s = [] /\ probes_closed s = false /\ wg s = i /\ 0 ≤ i ≤ parallelRequests
    | DSelect => output s = [] /\ probes_closed s = false /\ wg s = parallelRequests
    | DWait => output s = [LogAborting] /\ wg s = parallelRequests
    | _ => False
    end
}.

(** The dispatcher waits on a counter that no goroutine is left to
    bring to zero. *)
Definition parked (s : state) : Prop :=
  main s = DWait /\ wg s ≠ 0 /\ panicked s = None /\ Forall (eq WExit) (workers s).

(** Example runs.  Each starts the workers and sends the first probes. *)
Definition warm_up_1 : list label :=
  [Start; Spawn; Spawn; SelectDefault; Send; Receive 0%nat].

Definition warm_up_2 : list label :=
  [Start; Spawn; Spawn; Spawn; SelectDefault; Send; SelectDefault; Send;
   Receive 0%nat; Receive 1%nat].

(** Two workers are answered 429. *)
Definition two_throttled : list label :=
  warm_up_2 ++ [Get 0%nat (answer 429); Get 1%nat (answer 429)].

(** One worker handles two probes, both answered 200. *)
Definition two_successes : list label :=
  warm_up_1 ++ [Get 0%nat (answer 200); Done 0%nat; SelectDefault; Send;
                Receive 0%nat; Get 0%nat (answer 200); Done 0%nat].

(** The abort comes before any probe has been sent. *)
Definition early_abort : list label :=
  [Start; Spawn; Spawn; CloseAbort; SelectAbort; Receive 0%nat].

(** The buffer fills up while the worker is in [get], then [abort] is
    closed. *)
Definition backpressure : list label :=
  warm_up_1 ++ [SelectDefault; Send; SelectDefault; CloseAbort].

(** One worker is answered 429, the limit is reported, and the other
    worker's probe is answered 200 afterwards. *)
Definition late_success : list label :=
  warm_up_2 ++ [Get 0%nat (answer 429); Tick 5; SelectLimit; Swap;
                Get 1%nat (answer 200)].

(** One worker gets a transport error, the other one a 429, and the
    [select] takes the limit. *)
Definition error_then_limit : list label :=
  warm_up_2 ++ [Get 0%nat unreachable; Get 1%nat (answer 429); Tick 5;
                SelectLimit; Swap].

(** The arguments of the example runs, and the state an example run
    ends in. *)
Definition example_URL : string := "https://api.example.org/items".
Definition example_token : string := "secret".

Definition after (aborted : bool) (parallelRequests : Z) (ls : list label) : state :=
  default (init aborted 0)
    (exec example_URL example_token parallelRequests ls (init aborted 0)).

(** A server that redirects. *)
Definition redirected : exchange :=
  {| request_error := None;
     round_trips :=
       [RoundTripResponse
          {| StatusCode := 302;
             Location := NextLocation "https://elsewhere.example.org/"
                           "https://elsewhere.example.org/" |};
        RoundTripResponse {| StatusCode := 200; Location := NoLocation |}] |}.

(** A server that offers a choice, with the one it prefers as Location;
    the client does not go there by itself. *)
Definition multiple_choices : exchange :=
  {| request_error := None;
     round_trips :=
       [RoundTripResponse
          {| StatusCode := 300;
             Location := NextLocation "https://elsewhere.example.org/"
                           "https://elsewhere.example.org/" |}] |}.

(** A redirect whose Location is not a URL. *)
Definition misdirected : exchange :=
  {| request_error := None;
     round_trips :=
       [RoundTripResponse
          {| StatusCode := 307;
             Location := BadLocation "%zz"
                           (url_Error "parse" "%zz" (lib_error "invalid URL escape")) |}] |}.

(** A token source whose two methods always return a token and a nil
    error. *)
Definition reliable {T : Type} (tokenSource : TokenSrc.TokenSource T) : Prop :=
  forall t,
    (exists token t', TokenSrc.Token t = Ret (token, None) t') /\
    (exists token t', TokenSrc.Refresh t = Ret (token, None) t').

(** An identity provider that cannot be reached. *)
Definition offline : Adal.API unit :=
  {| Adal.NewOAuthConfig := fun authority tenantID =>
       (Some {| Adal.AuthorityEndpoint := authority; Adal.TenantID := tenantID |}, None);
     Adal.InitiateDeviceAuth := fun _ _ _ w =>
       ((None, Some (lib_error "dial tcp: no route to host")), w);
     Adal.WaitForUserCompletion := fun _ w =>
       ((None, Some (lib_error "dial tcp: no route to host")), w);
     Adal.NewServicePrincipalTokenFromManualToken := fun _ _ _ _ =>
       (None, Some (lib_error "parameter 'token' cannot be empty"));
     Adal.ServicePrincipalToken_Refresh := fun p w =>
       ((p, Some (lib_error "dial tcp: no route to host")), w) |}.

(** An identity provider that grants every request; its state counts
    the tokens it has issued, and the count is part of each token. *)
Definition issued (n : nat) : Adal.Token :=
  {| Adal.AccessToken := "access" +:+ String.concat "" (replicate n "'");
     Adal.RefreshToken := "refresh" |}.

Definition issuing : Adal.API nat :=
  {| Adal.NewOAuthConfig := fun authority tenantID =>
       (Some {| Adal.AuthorityEndpoint := authority; Adal.TenantID := tenantID |}, None);
     Adal.InitiateDeviceAuth := fun _ _ _ n =>
       ((Some {| Adal.Message := Some "To sign in, enter the code ABCD";
                 Adal.UserCode := "ABCD" |}, None), n);
     Adal.WaitForUserCompletion := fun _ n => ((Some (issued n), None), S n);
     Adal.NewServicePrincipalTokenFromManualToken := fun _ clientID resource token =>
       (Some {| Adal.spt_Token := token; Adal.spt_clientID := clientID;
                Adal.spt_resource := resource |}, None);
     Adal.ServicePrincipalToken_Refresh := fun p n =>
       (({| Adal.spt_Token := issued n; Adal.spt_clientID := Adal.spt_clientID p;
            Adal.spt_resource := Adal.spt_resource p |}, None), S n) |}.

(** A token source just made by [NewAzureTokenSource], with the identity
    provider in state [w]. *)
Definition fresh {world : Type} (w : world) : TokenSrc.azure world :=
  {| TokenSrc.ts :=
       {| TokenSrc.oauthConfig :=
            {| Adal.AuthorityEndpoint := TokenSrc.authority; Adal.TenantID := "tenant" |};
          TokenSrc.clientID := "client";
          TokenSrc.resource := "https://api.example.org/";
          TokenSrc.spt := None |};
     TokenSrc.idp := w;
     TokenSrc.stdout := [] |}.

Definition is_Swap (l : label) : bool :=
  match l with Swap => true | _ => false end.

End Run.

(** * What the further properties are stated with *)

Module Account.
Import Go Http Arl.

(** The number of elements of a list that satisfy [p]. *)
Fixpoint count {A : Type} (p : A -> bool) (l : list A) : nat :=
  match l with
  | [] => 0
  | a :: l => (if p a then 1 else 0) + count p l
  end.

(** The worker holds a probe whose [get] has not returned. *)
Definition holding (w : worker) : bool :=
  match w with
  | WGet _ => true
  | _ => false
  end.

(** The worker's [get] has returned and its [wg.Done()] is still to come. *)
Definition finishing (w : worker) : bool :=
  match w with
  | WSendErr _ | WDone => true
  | _ => false
  end.

(** The number of probes handled to the end of the loop body: [get] has
    returned and [wg.Done()] has been called. *)
Definition completed (s : state) : Z :=
  Z.of_nat (executed s) - Z.of_nat (count finishing (workers s)).

(** The senders queued on [errorChan] are distinct workers, each blocked
    in the send of the value queued for it. *)
Definition senders_ok (s : state) : Prop :=
  NoDup (errorChan s).*1 /\
  Forall (fun ie => workers s !! ie.1 = Some (WSendErr ie.2)) (errorChan s).

(** The bookkeeping of a run: where the probes sent are, how full the
    buffer is, what the counter of [wg] stands for, and how many workers
    there are. *)
Record account_inv (parallelRequests : Z) (s : state) : Prop := {
  acc_senders : senders_ok s;
  acc_probes :
    dispatched s
    = (length (ratelimitProbes s) + count holding (workers s) + executed s)%nat;
  acc_room : Z.of_nat (length (ratelimitProbes s)) ≤ Z.max 0 parallelRequests;
  acc_wg : panicked s = None -> wg s = Z.of_nat (length (workers s)) - completed s;
  acc_workers :
    match main s with
    | DStart => workers s = []
    | DSpawn i => Z.of_nat (length (workers s)) = i /\ i ≤ Z.max 0 parallelRequests
    | _ => Z.of_nat (length (workers s)) = Z.max 0 parallelRequests
    end
}.

(** The panics of a run, and what has caused each: the size of the
    probe channel, a [wg.Done()] too many, or the second close of
    [ratelimitReached]. *)
Definition panic_cause (parallelRequests : Z) (s : state) : Prop :=
  match panicked s with
  | None => True
  | Some makechan_size => main s = DStart /\ makechan_panics parallelRequests = true
  | Some negative_WaitGroup => wg s < 0
  | Some close_of_closed_channel => ratelimitReached s = true
  | Some _ => False
  end.


(** The transition raises no termination signal: it is not the close of
    [abort], and not the return of a [get] with an error or status 429. *)
Definition calm (URL token : string) (l : label) : bool :=
  match l with
  | CloseAbort => false
  | Get _ x =>
      match get URL token x with
      | (status, None) => negb (bool_decide (status = StatusTooManyRequests))
      | _ => false
      end
  | _ => true
  end.

(** One of the three cases of the [select] can proceed. *)
Definition signalled (s : state) : bool :=
  ratelimitReached s || abort s || negb (bool_decide (errorChan s = [])).

(** The dispatcher will send no probe it has not already decided to
    send. *)
Definition stopping (s : state) : bool :=
  signalled s || negb (Run.looping (main s)).

(** The probes sent, and the one the dispatcher is about to send. *)
Definition committed (s : state) : nat :=
  (dispatched s + match main s with DSend => 1 | _ => 0 end)%nat.

End Account.

(** * Further examples *)

Module Samples.
Import Go Http Arl.

(** An identity provider that grants the device flow and refuses every
    refresh. *)
Definition expiring : Adal.API nat :=
  {| Adal.NewOAuthConfig := Adal.NewOAuthConfig Run.issuing;
     Adal.InitiateDeviceAuth := Adal.InitiateDeviceAuth Run.issuing;
     Adal.WaitForUserCompletion := Adal.WaitForUserCompletion Run.issuing;
     Adal.NewServicePrincipalTokenFromManualToken :=
       Adal.NewServicePrincipalTokenFromManualToken Run.issuing;
     Adal.ServicePrincipalToken_Refresh := fun p n =>
       ((p, Some (lib_error "refresh request failed. Status Code = '400'")), n) |}.

(** A token source that always hands out the same token. *)
Definition constant_source : TokenSrc.TokenSource unit :=
  {| TokenSrc.Token := ret ("token", None);
     TokenSrc.Refresh := ret ("token", None) |}.

(** A parser that accepts every resource, and one that accepts none. *)
Definition parse_any (resource : string) : option ArlMain.URL_ * option error :=
  (Some {| ArlMain.Scheme := "https:"; ArlMain.Host := "api.example.org" |}, None).

Definition parse_none (resource : string) : option ArlMain.URL_ * option error :=
  (None, Some (lib_error "parse: invalid URI for request")).

(** A run of one worker that ends with a transport error received by the
    [select], after which the worker calls [wg.Done()]. *)
Definition clean_failure : list label :=
  Run.warm_up_1 ++ [Get 0%nat Run.unreachable; SelectError; Done 0%nat].

End Samples.

(** * The program as a whole *)

Module Coordination.
Import Go Http Arl ArlMain Account.

(** [main] has closed [abort]. *)
Definition aborting (p : program) : bool :=
  match pc p with
  | MWait | MExit => true
  | _ => false
  end.

(** The goroutine has not called [wg.Done()] yet. *)
Definition pending (r : run) : bool := negb (run_done r).

(** The tokens a goroutine has been started for, and those still to come. *)
Definition started (p : program) : list string := run_token <$> runs p.

Definition remaining (p : program) : list string :=
  match pc p with
  | MRange rest => rest
  | _ => []
  end.

(** What holds of a goroutine of a program. *)
Record run_ok (resource : string) (parallelRequests : Z) (p : program) (r : run) : Prop := {
  ok_abort : abort (run_state r) = aborting p;
  ok_reached : exists t0,
    reaches resource (run_token r) parallelRequests (Arl.init false t0) (run_state r);
  ok_done : run_done r = true -> main (run_state r) = DReturned;
  ok_running : crashed p = None -> panicked (run_state r) = None
}.

(** What holds of every state of the program from line 158 on. *)
Record program_inv (resource : string) (parallelRequests : Z) (tokens : list string)
    (p : program) : Prop := {
  pi_tokens : tokens = started p ++ remaining p;
  pi_wg : main_wg p = Z.of_nat (count pending (runs p));
  pi_log :
    main_log p = if aborting p then ["Waiting for rate limit probes to complete..."] else [];
  pi_runs : Forall (run_ok resource parallelRequests p) (runs p);
  pi_crashed : forall e, crashed p = Some e ->
    exists r, r ∈ runs p /\ panicked (run_state r) = Some e;
  pi_exit : pc p = MExit -> crashed p = None /\ main_wg p = 0
}.

(** A run that has returned without a panic has its counter at zero. *)
Definition returned_inv (s : state) : Prop :=
  main s = DReturned -> panicked s = None -> wg s = 0.

(** Example sessions of a program with one token and one worker.  In the
    first the probe is answered 429, the run reports the limit and
    returns, and its goroutine calls [wg.Done()]; the second goes on with
    the interrupt. *)
Definition measuring : list event :=
  [Go; Go]
  ++ (Run 0 <$> Run.warm_up_1
                ++ [Get 0%nat (Run.answer 429); Done 0%nat; SelectLimit; Swap; Wait])
  ++ [Finished 0%nat].

Definition measured : list event := measuring ++ [Signal; Interrupted; Waited].

(** The interrupt comes before the run has sent a probe. *)
Definition interrupted_early : list event :=
  [Go; Go; Run 0 Start; Run 0 Spawn; Run 0 Spawn; Signal; Interrupted;
   Run 0 SelectAbort; Run 0 (Receive 0%nat)].

(** The worker handles a second probe. *)
Definition overrun : list event := [Go; Go] ++ (Run 0 <$> Run.two_successes).

(** The state an example session ends in. *)
Definition ended (parallelRequests : Z) (es : list event) : program :=
  default (boot [Run.example_token] 0)
    (main_exec Run.example_URL parallelRequests es (boot [Run.example_token] 0)).

End Coordination.

(** * Properties *)

Import Go Http Arl Run.

(** ** The probe executor *)



(** What [get] returns, by the first thing the transport returns.  The
    [CheckRedirect] of line 62 stops [client.Do] before a second call of
    [RoundTrip]. *)
Lemma get_calls_cases URL token x :
  get_calls URL token x =
  match request_error x with
  | Some err => ((0, Some err), 0%nat)
  | None =>
      match round_trips x with
      | [] => ((0, Some (url_Error "Get" URL (lib_error "connection closed"))), 1%nat)
      | RoundTripError e :: _ => ((0, Some (url_Error "Get" URL e)), 1%nat)
      | RoundTripResponse r :: _ =>
          if followed r then
            match Location r with
            | BadLocation loc err =>
                ((0, Some (url_Error "Get" URL
                       (fmt_Errorf2 "failed to parse Location header %q: %v" loc err))),
                 1%nat)
            | _ =>
                ((0, Some (url_Error "Get" (Header_Get_Location r)
                       (errors_New "redirect not allowed"))), 1%nat)
            end
          else ((StatusCode r, None), 1%nat)
      end
  end.
Proof.
  unfold get_calls, NewRequest, Client_Do, followed, Header_Get_Location.
  destruct (request_error x); [done |].
  destruct (round_trips x) as [| [e | r] rest]; simpl; try done.
  destruct (shouldRedirect r); simpl; [| done].
  unfold Header_Get_Location, bad_location.
  destruct (Location r) as [| loc err | loc u]; simpl; [done | |];
    by case_bool_decide.
Qed.

Lemma get_status URL token x r rest :
  request_error x = None ->
  round_trips x = RoundTripResponse r :: rest ->
  followed r = false ->
  get URL token x = (StatusCode r, None).
Proof.
  intros Hreq Hrt Hno. unfold get. rewrite get_calls_cases.
  by rewrite Hreq, Hrt, Hno.
Qed.

Lemma get_calls_refused URL token x r rest loc u :
  request_error x = None ->
  round_trips x = RoundTripResponse r :: rest ->
  followed r = true ->
  Location r = NextLocation loc u ->
  get_calls URL token x
  = ((0, Some (url_Error "Get" loc (errors_New "redirect not allowed"))), 1%nat).
Proof.
  intros Hreq Hrt Hre Hloc. rewrite get_calls_cases.
  rewrite Hreq, Hrt, Hre. unfold Header_Get_Location. by rewrite Hloc.
Qed.

Lemma get_calls_bad_location URL token x r rest loc err :
  request_error x = None ->
  round_trips x = RoundTripResponse r :: rest ->
  followed r = true ->
  Location r = BadLocation loc err ->
  get_calls URL token x
  = ((0, Some (url_Error "Get" URL
                 (fmt_Errorf2 "failed to parse Location header %q: %v" loc err))), 1%nat).
Proof.
  intros Hreq Hrt Hre Hloc. rewrite get_calls_cases.
  by rewrite Hreq, Hrt, Hre, Hloc.
Qed.

(** A redirect that the client would follow has a Location. *)
Lemma followed_Location r :
  followed r = true ->
  (exists loc u, Location r = NextLocation loc u /\ loc ≠ "") \/
  (exists loc err, Location r = BadLocation loc err /\ loc ≠ "").
Proof.
  unfold followed, Header_Get_Location. intros [_ Hloc]%andb_true_iff.
  destruct (Location r) as [| loc err | loc u]; simpl in Hloc.
  - done.
  - right. exists loc, err. split; [done |]. by case_bool_decide.
  - left. exists loc, u. split; [done |]. by case_bool_decide.
Qed.

(** The status [get] returns is never a followed redirect's: when the error
    is nil, the status is the one of the first answer. *)
Lemma get_nil_error URL token x status :
  get URL token x = (status, None) ->
  request_error x = None /\
  exists r rest,
    round_trips x = RoundTripResponse r :: rest /\ StatusCode r = status /\
    followed r = false.
Proof.
  unfold get. rewrite get_calls_cases.
  destruct (request_error x); [discriminate |].
  destruct (round_trips x) as [| [e | r] rest]; simpl; try discriminate.
  destruct (followed r) eqn:Hre; simpl.
  - by destruct (Location r).
  - intros [= <-]. eauto 6.
Qed.

(** An error of [get] comes with status 0. *)
Lemma get_error_status URL token x status err :
  get URL token x = (status, Some err) -> status = 0.
Proof.
  unfold get. rewrite get_calls_cases.
  destruct (request_error x); [by intros [= <- _] |].
  destruct (round_trips x) as [| [e | r] rest]; simpl; try by intros [= <- _].
  destruct (followed r); [| discriminate].
  by destruct (Location r); intros [= <- _].
Qed.

(** ** The workers *)

Section Engine.
Variables (URL token : string) (parallelRequests : Z).

Local Abbreviation step := (step URL token parallelRequests).
Local Abbreviation exec := (exec URL token parallelRequests).
Local Abbreviation reaches := (reaches URL token parallelRequests).

Lemma step_running l s s' : step l s = Some s' -> panicked s = None.
Proof.
  unfold Arl.step. case_bool_decide as Hp; [discriminate |].
  intros _. destruct (panicked s); [| done]. exfalso. eauto.
Qed.

Lemma step_unfold l s :
  panicked s = None ->
  step l s =
    match l with
    | Tick d => if bool_decide (0 ≤ d) then Some (set_now (now s + d) s) else None
    | CloseAbort => if abort s then None else Some (set_abort true s)
    | Start => step_Start parallelRequests s
    | Spawn => step_Spawn parallelRequests s
    | SelectLimit => step_SelectLimit s
    | SelectAbort => step_SelectAbort s
    | SelectError => step_SelectError s
    | SelectDefault => step_SelectDefault s
    | Send => step_Send URL token parallelRequests s
    | Swap => step_Swap s
    | Wait => step_Wait s
    | Receive i => step_Receive i s
    | Get i x => step_Get i x s
    | Done i => step_Done i s
    end.
Proof.
  intros Hp. unfold Arl.step. rewrite Hp.
  case_bool_decide as H; [by destruct H | done].
Qed.

Lemma exec_app ls1 ls2 s :
  exec (ls1 ++ ls2) s = exec ls1 s ≫= exec ls2.
Proof.
  revert s. induction ls1 as [| l ls1 IH]; intros s; simpl; [done |].
  destruct (step l s); simpl; [apply IH | done].
Qed.

Lemma reaches_refl s : reaches s s.
Proof. by exists []. Qed.

Lemma reaches_step l s s' s'' :
  reaches s s' -> step l s' = Some s'' -> reaches s s''.
Proof.
  intros [ls Hls] Hstep. exists (ls ++ [l]).
  rewrite exec_app, Hls. simpl. by rewrite Hstep.
Qed.

(** Invariants are proved transition by transition. *)
Lemma exec_invariant (P : state -> Prop) :
  (forall l s s', P s -> step l s = Some s' -> P s') ->
  forall ls s s', P s -> exec ls s = Some s' -> P s'.
Proof.
  intros Hstep. induction ls as [| l ls IH]; intros s s' HP; simpl.
  - by intros [= <-].
  - destruct (step l s) as [s1 |] eqn:Hl; [| discriminate].
    apply IH. by eapply Hstep.
Qed.

End Engine.

(** A size that [makechan] accepts is not negative. *)
Lemma makechan_fits size : makechan_panics size = false -> bool_decide (size < 0) = false.
Proof. unfold makechan_panics. by intros [? _]%orb_false_iff. Qed.

Ltac step_cases H :=
  let Hrun := fresh "Hrun" in
  pose proof (step_running _ _ _ _ _ _ H) as Hrun;
  rewrite step_unfold in H by exact Hrun;
  match type of H with
  | match ?l with _ => _ end = _ => destruct l
  end;
  unfold step_Start, step_Spawn, step_SelectLimit, step_SelectAbort,
    step_SelectError, step_SelectDefault, step_Send, step_Swap, step_Wait,
    step_Receive, step_Get, step_Done in H;
  repeat case_match; simplify_eq;
  repeat match goal with
  | Hfits : makechan_panics _ = false |- _ => apply makechan_fits in Hfits
  end;
  unfold crash, close_probes, close_reached, set_worker in *.

Ltac inv_simp :=
  repeat match goal with
  | H : ?x = ?x -> _ |- _ => specialize (H eq_refl)
  | H : ?P -> _, H' : ?P |- _ =>
      match type of P with Prop => specialize (H H') end
  | H : _ /\ _ |- _ => destruct H
  | H : exists _, _ |- _ => destruct H
  | H : forall e, DLimit ?x = DLimit e -> _ |- _ => specialize (H x eq_refl)
  | H : ?a <> ?b -> _ |- _ => specialize (H ltac:(discriminate))
  | H : probes_closed ?s = _ |- context [probes_closed ?s] => rewrite H
  | H : output ?s = _ |- context [output ?s] => rewrite H
  | H : main ?s = _ |- context [main ?s] => rewrite H
  | H : main ?s = _, H' : context [main ?s] |- _ => rewrite H in H'; simpl in H'
  | H : forall e, ?d = DLimit e -> _, H' : ?d = DLimit ?x |- _ => specialize (H x H')
  end.

Section Invariants.
Variables (URL token : string) (parallelRequests : Z).

Local Abbreviation step := (step URL token parallelRequests).
Local Abbreviation reaches := (reaches URL token parallelRequests).

Lemma run_inv_init aborted t0 : run_inv (init aborted t0).
Proof. split; simpl; done. Qed.

Lemma head_app_Some {A} (l k : list A) x : head l = Some x -> head (l ++ k) = Some x.
Proof. by destruct l. Qed.

Lemma run_inv_step l s s' : run_inv s -> step l s = Some s' -> run_inv s'.
Proof.
  intros [Hloop Hlimit Hleft Herrors Htime] Hstep.
  step_cases Hstep.
  all: repeat match goal with
       | H : bool_decide _ = true |- _ => apply bool_decide_eq_true in H
       | H : bool_decide _ = false |- _ => apply bool_decide_eq_false in H
       end.
  all: simpl in *; inv_simp.
  all: split; simpl; intros; inv_simp; simpl in *; simplify_eq; try done.
  all: try congruence.
  all: try (split_and?; first [done | lia | congruence | eauto]; fail).
  all: try (destruct (ratelimitReached s) eqn:?; simpl in *; inv_simp;
            split_and?; first [done | lia | congruence | eauto]; fail).
  all: try (rewrite fmap_app; simpl; f_equal; eauto; fail).
  all: try (destruct (ratelimitReached s) eqn:?; simpl in *; inv_simp).
  all: try (eexists; split; [first [done | eassumption] |]); simpl.
  all: try match goal with
       | |- justified _ ?x => is_var x; destruct x; simpl in *
       end.
  all: try match goal with
       | H : _ = observed ?s |- context [observed ?s] => rewrite <- H
       end.
  all: try match goal with
       | H : errorChan ?s = _ |- context [errorChan ?s] => rewrite H
       end.
  all: first [done | congruence | eauto using head_app_Some].
Qed.

Lemma run_inv_reaches aborted t0 s :
  reaches (init aborted t0) s -> run_inv s.
Proof.
  intros [ls Hls]. eapply exec_invariant; [| apply (run_inv_init aborted t0) | exact Hls].
  intros l s1 s2. apply run_inv_step.
Qed.

End Invariants.

Section Workers.
Variables (URL token : string) (parallelRequests : Z).

Local Abbreviation step := (step URL token parallelRequests).
Local Abbreviation exec := (exec URL token parallelRequests).
Local Abbreviation reaches := (reaches URL token parallelRequests).

Lemma step_Get_error i x probe s err status :
  panicked s = None ->
  workers s !! i = Some (WGet probe) ->
  get (probe_URL probe) (probe_token probe) x = (status, Some err) ->
  exists s', step (Get i x) s = Some s' /\
    errorChan s' = errorChan s ++ [(i, err)] /\
    observed s' = observed s ++ [err] /\
    workers s' !! i = Some (WSendErr err) /\
    numReqs s' = numReqs s /\ ratelimitReached s' = ratelimitReached s /\
    panicked s' = None.
Proof.
  intros Hrun Hi Hget. rewrite step_unfold by done. unfold step_Get.
  rewrite Hi, Hget. eexists. split; [done |]. simpl. split_and?; try done.
  apply list_lookup_insert_eq. by eapply lookup_lt_Some.
Qed.

Lemma step_Get_status i x probe s status :
  panicked s = None ->
  workers s !! i = Some (WGet probe) ->
  get (probe_URL probe) (probe_token probe) x = (status, None) ->
  exists s', step (Get i x) s = Some s' /\
    errorChan s' = errorChan s /\ observed s' = observed s /\
    (status = StatusOK ->
       numReqs s' = wrap_uint64 (numReqs s + 1) /\
       ratelimitReached s' = ratelimitReached s /\ panicked s' = None) /\
    (status = StatusTooManyRequests ->
       ratelimitReached s' = true /\ numReqs s' = numReqs s /\
       panicked s' = (if ratelimitReached s then Some close_of_closed_channel else None)) /\
    (status ≠ StatusOK -> status ≠ StatusTooManyRequests ->
       numReqs s' = numReqs s /\ ratelimitReached s' = ratelimitReached s /\
       panicked s' = None).
Proof.
  intros Hrun Hi Hget. rewrite step_unfold by done. unfold step_Get.
  rewrite Hi, Hget.
  repeat case_bool_decide; subst; (eexists; split; [done |]); simpl.
  all: unfold close_reached, crash; simpl; try destruct (ratelimitReached s) eqn:Hrl; simpl.
  all: repeat (split_and?; intros);
    first [done | congruence | by unfold StatusOK, StatusTooManyRequests in *].
Qed.


(** C9, as the code has it.  [get] never issues the request for the target
    of a redirect: [RoundTrip] is called once.  When the answer is a
    redirect that the client would follow, [client.Do] returns an error,
    the one of the [CheckRedirect] of line 62 under the Location value, or
    the one of a Location that does not parse; [get] passes it on and the
    worker sends it on [errorChan], so the answer counts neither as a
    success nor as throttling.  Any other answer of the redirection class
    is returned with its status and a nil error, and the worker ignores
    it. *)
Theorem redirect_is_transport_error i x r rest probe s :
  request_error x = None ->
  round_trips x = RoundTripResponse r :: rest ->
  panicked s = None ->
  workers s !! i = Some (WGet probe) ->
  (get_calls (probe_URL probe) (probe_token probe) x).2 = 1%nat /\
  exists s', step (Get i x) s = Some s' /\
    (followed r = true ->
       exists err,
         get (probe_URL probe) (probe_token probe) x = (0, Some err) /\
         sends i err s s' /\
         (forall loc u, Location r = NextLocation loc u ->
            err = url_Error "Get" loc (errors_New "redirect not allowed")) /\
         (forall loc e, Location r = BadLocation loc e ->
            err = url_Error "Get" (probe_URL probe)
                    (fmt_Errorf2 "failed to parse Location header %q: %v" loc e))) /\
    (followed r = false -> is_redirect r ->
       get (probe_URL probe) (probe_token probe) x = (StatusCode r, None) /\
       errorChan s' = errorChan s /\ numReqs s' = numReqs s /\
       ratelimitReached s' = ratelimitReached s /\ panicked s' = None).
Proof.
  intros Hreq Hrt Hrun Hi. split.
  { rewrite get_calls_cases, Hreq, Hrt.
    destruct (followed r); [by destruct (Location r) | done]. }
  destruct (followed r) eqn:Hre.
  - assert (exists err,
              get_calls (probe_URL probe) (probe_token probe) x = ((0, Some err), 1%nat) /\
              (forall loc u, Location r = NextLocation loc u ->
                 err = url_Error "Get" loc (errors_New "redirect not allowed")) /\
              (forall loc e, Location r = BadLocation loc e ->
                 err = url_Error "Get" (probe_URL probe)
                         (fmt_Errorf2 "failed to parse Location header %q: %v" loc e)))
      as (err & Hcalls & Hnext & Hbad).
    { destruct (followed_Location r Hre)
        as [(loc & u & Hloc & _) | (loc & e & Hloc & _)].
      - eexists. split; [by eapply get_calls_refused |].
        split; intros ? ? Hloc'; rewrite Hloc in Hloc'; by simplify_eq.
      - eexists. split; [by eapply get_calls_bad_location |].
        split; intros ? ? Hloc'; rewrite Hloc in Hloc'; by simplify_eq. }
    assert (get (probe_URL probe) (probe_token probe) x = (0, Some err)) as Hget
      by (unfold get; by rewrite Hcalls).
    destruct (step_Get_error i x probe s err 0 Hrun Hi Hget)
      as (s' & Hs' & ? & ? & ? & ? & ? & ?).
    exists s'. split; [done |]. split; [| done].
    intros _. exists err. by split_and!.
  - pose proof (get_status (probe_URL probe) (probe_token probe) _ _ _ Hreq Hrt Hre)
      as Hget.
    destruct (step_Get_status i x probe s _ Hrun Hi Hget)
      as (s' & Hs' & Hchan & _ & _ & _ & Hother).
    exists s'. split; [done |]. split; [done |].
    intros _ [H3 H4]. destruct Hother as (? & ? & ?).
    + unfold StatusOK. lia.
    + unfold StatusTooManyRequests. lia.
    + by split_and!.
Qed.

(** Once the dispatcher waits on a counter that is not zero and every
    worker has left its loop, nothing but the clock moves. *)
Lemma parked_step l s s' : parked s -> step l s = Some s' -> parked s' /\ wg s' = wg s.
Proof.
  intros (Hmain & Hwg & Hrun & Hws) Hstep.
  step_cases Hstep.
  all: repeat match goal with
       | H : bool_decide _ = true |- _ => apply bool_decide_eq_true in H
       | H : workers _ !! _ = Some _ |- _ =>
           apply (Forall_lookup_1 _ _ _ _ Hws) in H; try discriminate
       end.
  all: try congruence.
  all: by repeat split.
Qed.

Lemma parked_forever ls s s' :
  parked s -> exec ls s = Some s' -> main s' = DWait /\ wg s' = wg s.
Proof.
  revert s. induction ls as [| l ls IH]; intros s Hs; simpl.
  - intros [= <-]. by destruct Hs.
  - destruct (step l s) as [s1 |] eqn:Hl; [| discriminate].
    destruct (parked_step l s s1 Hs Hl) as [Hs1 <-]. by apply IH.
Qed.

End Workers.

Section Aborted.
Variables (URL token : string) (parallelRequests : Z).
Hypothesis workers_wanted : 1 ≤ parallelRequests.

Local Abbreviation step := (step URL token parallelRequests).
Local Abbreviation exec := (exec URL token parallelRequests).
Local Abbreviation reaches := (reaches URL token parallelRequests).

Lemma aborted_inv_init t0 : aborted_inv parallelRequests (init true t0).
Proof. split; simpl; try done. Qed.

Lemma idle_lookup ws i w : Forall idle ws -> ws !! i = Some w -> idle w.
Proof. intros Hall Hi. by eapply Forall_lookup_1. Qed.

Lemma aborted_inv_step l s s' :
  aborted_inv parallelRequests s -> step l s = Some s' -> aborted_inv parallelRequests s'.
Proof.
  intros [Hab Hrl Herr Hq Hd Hx Hp Hws Hmain] Hstep.
  step_cases Hstep.
  all: repeat match goal with
       | H : bool_decide _ = true |- _ => apply bool_decide_eq_true in H
       | H : bool_decide _ = false |- _ => apply bool_decide_eq_false in H
       | H : workers _ !! _ = Some _ |- _ =>
           apply (idle_lookup _ _ _ Hws) in H; destruct H; try discriminate
       end.
  all: try congruence.
  all: simpl in *; inv_simp; try done.
  all: try (rewrite Hab, ?orb_true_r in *; discriminate).
  all: try lia.
  all: split; simpl; try done.
  all: try (apply Forall_app; split; [done | by repeat constructor]).
  all: try (apply Forall_insert; [done | by right]).
  all: repeat match goal with
       | H : main ?s = _ |- context [main ?s] => rewrite H
       end; try (split_and?; first [done | lia]).
Qed.

Lemma aborted_inv_reaches t0 s :
  reaches (init true t0) s -> aborted_inv parallelRequests s.
Proof.
  intros [ls Hls]. eapply exec_invariant; [| apply (aborted_inv_init t0) | exact Hls].
  intros l s1 s2. apply aborted_inv_step.
Qed.

(** C5.  [measureRatelimit] called with [abort] closed already and at
    least one worker: no probe is ever sent on [ratelimitProbes], no call
    of [get] is made, nothing but the abort message is logged, and at the
    [select] only the abort case can proceed, which leaves the loop with
    that message.  But the deferred [wg.Wait()] never returns: the
    counter stays at [parallelRequests], since [wg.Done()] is only called
    after a probe. *)
Theorem abort_before_start_never_returns t0 s :
  reaches (init true t0) s ->
  main s ≠ DReturned /\
  dispatched s = 0%nat /\ executed s = 0%nat /\
  (forall line, line ∈ output s -> line = LogAborting) /\
  (main s = DSelect ->
     (forall l s', of_main l = true -> step l s = Some s' -> l = SelectAbort) /\
     exists s', step SelectAbort s = Some s' /\ main s' = DWait /\
       output s' = [LogAborting] /\ probes_closed s' = true) /\
  (main s = DWait -> wg s = parallelRequests /\ step Wait s = None).
Proof.
  intros Hreach. destruct (aborted_inv_reaches t0 s Hreach)
    as [Hab Hrl Herr Hq Hd Hx Hp Hws Hmain].
  split_and!; try done.
  - intros Hret. by rewrite Hret in Hmain.
  - intros line Hin. destruct (main s); inv_simp; try done.
    all: match goal with H : output _ = _ |- _ => rewrite H in Hin end.
    all: by repeat match goal with
            | H : _ ∈ _ |- _ => inversion H; subst; clear H
            end.
  - intros Hsel. rewrite Hsel in Hmain. destruct Hmain as (Hout & Hclosed & Hwg).
    assert (panicked s = None) as Hrun by (apply Hp; congruence).
    split.
    + intros l s' Hl. rewrite step_unfold by done.
      destruct l; try done; simpl.
      all: unfold step_Start, step_Spawn, step_SelectLimit, step_SelectError,
             step_SelectDefault, step_Send, step_Swap, step_Wait.
      all: rewrite Hsel, ?Hrl, ?Herr, ?Hab; simpl; try done.
    + rewrite step_unfold by done. unfold step_SelectAbort, close_probes.
      rewrite Hsel, Hab, Hclosed. eexists. split; [done |]. simpl.
      by rewrite Hout.
  - intros Hwait. rewrite Hwait in Hmain. destruct Hmain as [Hout Hwg].
    assert (panicked s = None) as Hrun by (apply Hp; congruence).
    split; [done |]. rewrite step_unfold by done. unfold step_Wait.
    rewrite Hwait. case_bool_decide; [lia | done].
Qed.

End Aborted.

(** ** The dispatch loop *)

Section Dispatcher.
Variables (URL token : string) (parallelRequests : Z).

Local Abbreviation step := (step URL token parallelRequests).
Local Abbreviation exec := (exec URL token parallelRequests).
Local Abbreviation reaches := (reaches URL token parallelRequests).

(** The [select] itself never waits: one of its four ways out can
    always be taken. *)
Lemma select_proceeds s :
  panicked s = None -> main s = DSelect ->
  exists l s', l ∈ [SelectLimit; SelectAbort; SelectError; SelectDefault] /\
    step l s = Some s'.
Proof.
  intros Hrun Hsel.
  destruct (ratelimitReached s) eqn:Hrl.
  { exists SelectLimit. eexists. split; [repeat constructor |].
    rewrite step_unfold by done. unfold step_SelectLimit. by rewrite Hsel, Hrl. }
  destruct (abort s) eqn:Hab.
  { exists SelectAbort. eexists. split; [repeat constructor |].
    rewrite step_unfold by done. unfold step_SelectAbort. by rewrite Hsel, Hab. }
  destruct (errorChan s) as [| [i e] rest] eqn:Herr.
  - exists SelectDefault. eexists. split; [repeat constructor |].
    rewrite step_unfold by done. unfold step_SelectDefault.
    by rewrite Hsel, Herr, Hrl, Hab.
  - exists SelectError. eexists. split; [repeat constructor |].
    rewrite step_unfold by done. unfold step_SelectError. by rewrite Hsel, Herr.
Qed.

Lemma default_when_nothing_ready s :
  panicked s = None -> main s = DSelect ->
  is_Some (step SelectDefault s)
  <-> ratelimitReached s = false /\ abort s = false /\ errorChan s = [].
Proof.
  intros Hrun Hsel. rewrite step_unfold by done. unfold step_SelectDefault.
  rewrite Hsel. destruct (errorChan s) as [| [i e] rest].
  - destruct (ratelimitReached s), (abort s); simpl; split.
    all: first [by intros [? ?] | by intros (? & ? & ?) | by eauto].
  - split; [by intros [? ?] | by intros (? & ? & ?)].
Qed.

(** C3, as the code has it.  In every state of a run, the [select] can
    always proceed, and it takes [default] exactly when no termination
    signal is ready.  In [default] the dispatcher has one statement, the
    send of line 131, which is a plain send: it proceeds exactly when the
    buffer of [ratelimitProbes] has room, puts one probe in it and goes
    back to the [select]; while the buffer is full the dispatcher has no
    transition at all. *)
Theorem dispatch_send_waits_for_room aborted t0 s :
  reaches (init aborted t0) s ->
  panicked s = None ->
  (main s = DSelect ->
     (exists l s', l ∈ [SelectLimit; SelectAbort; SelectError; SelectDefault] /\
        step l s = Some s') /\
     (is_Some (step SelectDefault s)
      <-> ratelimitReached s = false /\ abort s = false /\ errorChan s = [])) /\
  (main s = DSend ->
     (forall l, of_main l = true -> is_Some (step l s) -> l = Send) /\
     (is_Some (step Send s)
      <-> Z.of_nat (length (ratelimitProbes s)) < parallelRequests) /\
     (forall s', step Send s = Some s' ->
        main s' = DSelect /\
        ratelimitProbes s'
        = ratelimitProbes s ++ [{| probe_URL := URL; probe_token := token |}])).
Proof.
  intros Hreach Hrun. split.
  - intros Hsel. split.
    + by apply select_proceeds.
    + by apply default_when_nothing_ready.
  - intros Hsend.
    destruct (run_inv_reaches _ _ _ _ _ _ Hreach) as [Hloop _ _ _ _].
    rewrite Hsend in Hloop. destruct (Hloop eq_refl) as [Hopen _].
    split_and!.
    + intros l Hl. rewrite step_unfold by done.
      destruct l; try done; simpl.
      all: unfold step_Start, step_Spawn, step_SelectLimit, step_SelectAbort,
             step_SelectError, step_SelectDefault, step_Swap, step_Wait.
      all: rewrite Hsend; by intros [? ?].
    + rewrite step_unfold by done. unfold step_Send. rewrite Hsend, Hopen.
      case_bool_decide; split; intros Hroom;
        first [done | by eauto | by destruct Hroom].
    + intros s'. rewrite step_unfold by done. unfold step_Send.
      rewrite Hsend, Hopen. case_bool_decide; [| done]. by intros [= <-].
Qed.

(** Once the loop is left it is not entered again, and [Swap] belongs to
    the loop. *)
Lemma left_loop_step l s s' :
  left_loop (main s) = true -> step l s = Some s' ->
  left_loop (main s') = true /\ is_Swap l = false.
Proof.
  intros Hleft Hstep. step_cases Hstep.
  all: simpl in *; try done.
  all: repeat match goal with
       | H : main _ = _ |- _ => rewrite H in *
       end; simpl in *; try done.
  all: by repeat case_match.
Qed.

Lemma left_loop_no_Swap ls s s' :
  left_loop (main s) = true -> exec ls s = Some s' -> filter is_Swap ls = [].
Proof.
  revert s. induction ls as [| l ls IH]; intros s Hleft; simpl; [done |].
  destruct (step l s) as [s1 |] eqn:Hl; [| discriminate].
  destruct (left_loop_step l s s1 Hleft Hl) as [Hleft1 Hno].
  intros Hrest. rewrite filter_cons. rewrite Hno. simpl. by eapply IH.
Qed.

Lemma Swap_once ls s s' :
  exec ls s = Some s' -> (length (filter is_Swap ls) ≤ 1)%nat.
Proof.
  revert s. induction ls as [| l ls IH]; intros s; simpl; [lia |].
  destruct (step l s) as [s1 |] eqn:Hl; [| discriminate].
  intros Hrest. rewrite filter_cons. destruct (is_Swap l) eqn:Hsw.
  - destruct l; try discriminate.
    assert (left_loop (main s1) = true) as Hleft.
    { pose proof (step_running _ _ _ _ _ _ Hl) as Hrun.
      rewrite step_unfold in Hl by done. unfold step_Swap in Hl.
      destruct (main s); simplify_eq. done. }
    rewrite (left_loop_no_Swap ls s1 s' Hleft Hrest). simpl. lia.
  - simpl. by eapply IH.
Qed.

(** C6, as the code has it.  [SwapUint64] is executed at most once in a
    run.  When the [select] takes the limit case it records the time of
    detection; the swap that follows reads the counter as it is then,
    leaves it at zero, and logs the value read together with the time
    from [start] to the detection, the two operands of the throughput. *)
Theorem limit_reached_report aborted t0 ls s :
  exec ls (init aborted t0) = Some s ->
  (length (filter is_Swap ls) ≤ 1)%nat /\
  (forall s', step SelectLimit s = Some s' ->
     main s' = DLimit (now s) /\ start s' = start s /\ numReqs s' = numReqs s) /\
  (forall end_, panicked s = None -> main s = DLimit end_ ->
     start s ≤ end_ ≤ now s /\
     exists s', step Swap s = Some s' /\
       output s' = [LogRateLimitReached (numReqs s) (end_ - start s)] /\
       numReqs s' = 0 /\ left_loop (main s') = true).
Proof.
  intros Hexec.
  assert (reaches (init aborted t0) s) as Hreach by by exists ls.
  destruct (run_inv_reaches _ _ _ _ _ _ Hreach) as [Hloop Hlimit _ _ _].
  split_and!.
  - by eapply Swap_once.
  - intros s' Hstep. pose proof (step_running _ _ _ _ _ _ Hstep) as Hrun.
    rewrite step_unfold in Hstep by done. unfold step_SelectLimit, close_probes in Hstep.
    destruct (main s) eqn:Hmain; try done.
    destruct (Hloop eq_refl) as [Hopen _]. rewrite Hopen in Hstep.
    destruct (ratelimitReached s); by simplify_eq.
  - intros end_ Hrun Hmain. destruct (Hlimit end_ Hmain) as (Hout & _ & Htime).
    split; [done |]. rewrite step_unfold by done. unfold step_Swap.
    rewrite Hmain. eexists. split; [done |]. simpl. by rewrite Hout.
Qed.






End Dispatcher.

(** ** The engine on example runs *)

(** C1.  Two workers are answered 429: the second [close(ratelimitReached)]
    panics with "close of closed channel".  The process stops there, before
    any termination reason has been logged. *)
Theorem second_close_panics :
  exists s,
    exec example_URL example_token 2 two_throttled (init false 0) = Some s /\
    ratelimitReached s = true /\
    panicked s = Some close_of_closed_channel /\
    output s = [].
Proof. eexists. split; [vm_compute; reflexivity |]. by vm_compute. Qed.

(** C2.  The counter of [wg] is raised once per worker and lowered once per
    probe.  A worker that handles two probes makes it negative, which
    panics; a worker that handles none leaves it positive, and then
    [wg.Wait()] never returns although every worker has finished. *)
Theorem waitgroup_counter_misuse :
  (exists s,
     exec example_URL example_token 1 two_successes (init false 0) = Some s /\
     wg s = -1 /\ panicked s = Some negative_WaitGroup) /\
  (exists s,
     exec example_URL example_token 1 early_abort (init false 0) = Some s /\
     workers s = [WExit] /\ output s = [LogAborting] /\
     forall ls s', exec example_URL example_token 1 ls s = Some s' ->
       main s' = DWait /\ wg s' = 1).
Proof.
  split.
  - eexists. split; [vm_compute; reflexivity |]. by vm_compute.
  - eexists. split; [vm_compute; reflexivity |]. split_and!; [done | done |].
    intros ls s' Hls. eapply parked_forever in Hls; [exact Hls |].
    repeat split; simpl; try done. by repeat constructor.
Qed.

Lemma waitgroup_counter_misuse_witness :
  exists s,
    exec example_URL example_token 1 early_abort (init false 0) = Some s /\
    forall s', exec example_URL example_token 1 [Tick 1; Tick 2] s = Some s' ->
      main s' = DWait /\ wg s' = 1.
Proof.
  destruct waitgroup_counter_misuse as [_ (s & Hs & _ & _ & Hforever)].
  exists s. split; [exact Hs |]. intros s'. apply Hforever.
Defined.

(** C3, as the spec states it, fails: with the buffer full and [abort]
    closed, the dispatcher stands at the send of line 131 and has no
    transition; it does not fall through to the [select]. *)
Lemma full_queue_blocks_dispatcher :
  ~ (forall aborted t0 s,
       reaches example_URL example_token 1 (init aborted t0) s ->
       panicked s = None -> main s = DSend ->
       Z.of_nat (length (ratelimitProbes s)) = 1 ->
       exists l s', of_main l = true /\ step example_URL example_token 1 l s = Some s').
Proof.
  intros Hclaim.
  destruct (Hclaim false 0 (after false 1 backpressure)) as (l & s' & Hl & Hstep).
  - exists backpressure. vm_compute. reflexivity.
  - vm_compute. reflexivity.
  - vm_compute. reflexivity.
  - vm_compute. reflexivity.
  - destruct l; try discriminate Hl; vm_compute in Hstep; discriminate Hstep.
Qed.

(** C6, as the spec states it, fails: after the limit has been reported, a
    worker whose probe was in flight is answered 200 and the counter is 1. *)
Lemma counter_positive_after_report :
  ~ (forall aborted t0 s currentNumReqs ratelimitDuration,
       reaches example_URL example_token 2 (init aborted t0) s ->
       output s = [LogRateLimitReached currentNumReqs ratelimitDuration] ->
       numReqs s = 0).
Proof.
  intros Hclaim.
  specialize (Hclaim false 0 (after false 2 late_success) 0 5).
  assert (numReqs (after false 2 late_success) = 1) as Hone by (vm_compute; reflexivity).
  rewrite Hclaim in Hone; [discriminate | |].
  - exists late_success. vm_compute. reflexivity.
  - vm_compute. reflexivity.
Qed.



(** C9, as the spec states it, fails: the server answers 300 with the
    Location it prefers.  The client does not go there, and [get] returns
    the status 300 with a nil error. *)
Lemma redirect_returned_as_status :
  ~ (forall x r rest,
       request_error x = None -> round_trips x = RoundTripResponse r :: rest ->
       is_redirect r ->
       exists err, get example_URL example_token x = (0, Some err)).
Proof.
  intros Hclaim.
  destruct (Hclaim multiple_choices _ _ eq_refl eq_refl) as [err Herr].
  - unfold is_redirect. simpl. lia.
  - vm_compute in Herr. discriminate Herr.
Qed.


Lemma redirect_is_transport_error_witness :
  followed {| StatusCode := 302;
              Location := NextLocation "https://elsewhere.example.org/"
                            "https://elsewhere.example.org/" |} = true /\
  get example_URL example_token redirected
  = (0, Some (url_Error "Get" "https://elsewhere.example.org/"
                (errors_New "redirect not allowed"))) /\
  (get_calls example_URL example_token redirected).2 = 1%nat /\
  get example_URL example_token misdirected
  = (0, Some (url_Error "Get" example_URL
                (fmt_Errorf2 "failed to parse Location header %q: %v" "%zz"
                   (url_Error "parse" "%zz" (lib_error "invalid URL escape"))))) /\
  exists s',
    step example_URL example_token 1 (Get 0%nat redirected) (after false 1 warm_up_1)
    = Some s' /\
    numReqs s' = 0 /\ ratelimitReached s' = false.
Proof.
  assert (panicked (after false 1 warm_up_1) = None) as Hrun
    by (vm_compute; reflexivity).
  assert (workers (after false 1 warm_up_1) !! 0%nat
          = Some (WGet {| probe_URL := example_URL; probe_token := example_token |}))
    as Hi by (vm_compute; reflexivity).
  destruct (redirect_is_transport_error example_URL example_token 1 0%nat redirected
              _ _ _ _ eq_refl eq_refl Hrun Hi)
    as (Hcalls & s' & Hstep & Hfollowed & _).
  destruct (Hfollowed eq_refl) as (err & Hget & Hsends & Hnext & _).
  destruct Hsends as (_ & _ & Hn & Hrl & _).
  destruct (redirect_is_transport_error example_URL example_token 1 0%nat misdirected
              _ _ _ _ eq_refl eq_refl Hrun Hi)
    as (_ & s2 & _ & Hfollowed' & _).
  destruct (Hfollowed' eq_refl) as (err' & Hget' & _ & _ & Hbad).
  split; [reflexivity |]. split; [| split; [exact Hcalls | split]].
  - simpl in Hget. rewrite Hget. by rewrite (Hnext _ _ eq_refl).
  - simpl in Hget'. rewrite Hget'. by rewrite (Hbad _ _ eq_refl).
  - exists s'. split; [exact Hstep |]. rewrite Hn, Hrl. by vm_compute.
Defined.

Lemma abort_before_start_never_returns_witness :
  1 ≤ 1 /\
  reaches example_URL example_token 1 (init true 0)
    (after true 1 [Start; Spawn; Spawn; SelectAbort; Receive 0%nat]) /\
  wg (after true 1 [Start; Spawn; Spawn; SelectAbort; Receive 0%nat]) = 1 /\
  step example_URL example_token 1 Wait
    (after true 1 [Start; Spawn; Spawn; SelectAbort; Receive 0%nat]) = None.
Proof.
  assert (1 ≤ 1) as Hn by lia.
  assert (reaches example_URL example_token 1 (init true 0)
            (after true 1 [Start; Spawn; Spawn; SelectAbort; Receive 0%nat])) as Hreach
    by (exists [Start; Spawn; Spawn; SelectAbort; Receive 0%nat]; vm_compute; reflexivity).
  split; [exact Hn |]. split; [exact Hreach |].
  destruct (abort_before_start_never_returns example_URL example_token 1 Hn 0 _ Hreach)
    as (_ & _ & _ & _ & _ & Hwait).
  apply Hwait. vm_compute. reflexivity.
Defined.


Lemma dispatch_send_waits_for_room_witness :
  reaches example_URL example_token 1 (init false 0) (after false 1 backpressure) /\
  panicked (after false 1 backpressure) = None /\
  abort (after false 1 backpressure) = true /\
  (is_Some (step example_URL example_token 1 Send (after false 1 backpressure))
   <-> Z.of_nat (length (ratelimitProbes (after false 1 backpressure))) < 1).
Proof.
  assert (reaches example_URL example_token 1 (init false 0) (after false 1 backpressure))
    as Hreach by (exists backpressure; vm_compute; reflexivity).
  assert (panicked (after false 1 backpressure) = None) as Hrun
    by (vm_compute; reflexivity).
  split; [exact Hreach |]. split; [exact Hrun |]. split; [vm_compute; reflexivity |].
  destruct (dispatch_send_waits_for_room example_URL example_token 1 false 0 _ Hreach Hrun)
    as [_ Hsend].
  destruct Hsend as (_ & Hroom & _); [vm_compute; reflexivity |]. exact Hroom.
Defined.


Lemma limit_reached_report_witness :
  exec example_URL example_token 2
    (warm_up_2 ++ [Get 0%nat (answer 200); Get 1%nat (answer 429); Tick 5; SelectLimit])
    (init false 0)
  = Some (after false 2
            (warm_up_2 ++ [Get 0%nat (answer 200); Get 1%nat (answer 429); Tick 5;
                           SelectLimit])) /\
  exists s',
    step example_URL example_token 2 Swap
      (after false 2
         (warm_up_2 ++ [Get 0%nat (answer 200); Get 1%nat (answer 429); Tick 5;
                        SelectLimit]))
    = Some s' /\
    output s' = [LogRateLimitReached 1 5] /\ numReqs s' = 0.
Proof.
  set (ls := warm_up_2 ++ [Get 0%nat (answer 200); Get 1%nat (answer 429); Tick 5;
                           SelectLimit]).
  assert (exec example_URL example_token 2 ls (init false 0) = Some (after false 2 ls))
    as Hexec by (vm_compute; reflexivity).
  split; [exact Hexec |].
  destruct (limit_reached_report example_URL example_token 2 false 0 ls _ Hexec)
    as (_ & _ & Hswap).
  destruct (Hswap 5) as (_ & s' & Hstep & Hout & Hzero & _).
  - vm_compute. reflexivity.
  - vm_compute. reflexivity.
  - exists s'. split; [exact Hstep |]. split; [| exact Hzero].
    rewrite Hout. vm_compute. reflexivity.
Defined.



(** ** The token source *)

Lemma wrap_int_small z : min_int ≤ z ≤ max_int -> wrap_int z = z.
Proof. unfold wrap_int, min_int, max_int. intros H. rewrite Z.mod_small; lia. Qed.

Lemma wrap_int_range z : min_int ≤ wrap_int z ≤ max_int.
Proof.
  unfold wrap_int, min_int, max_int.
  pose proof (Z.mod_pos_bound (z + 2 ^ 63) (2 ^ 64)). lia.
Qed.

Section Azure.
Import TokenSrc.
Context {world : Type} (adal : Adal.API world) (global_resource : string).

Local Abbreviation acquire := (acquireTokenDeviceCodeFlow adal global_resource).

(** [Token] in terms of what [acquireTokenDeviceCodeFlow] returns: line
    49 reads [ts.spt.AccessToken] whatever [err] is. *)
Lemma Token_unfold s :
  AzureTokenSource_Token adal global_resource s =
    match acquire s with
    | Ret (Some p, err) s' =>
        Ret (Adal.AccessToken (Adal.spt_Token p), err)
          {| ts := {| oauthConfig := oauthConfig (ts s'); clientID := clientID (ts s');
                      resource := resource (ts s'); spt := Some p |};
             idp := idp s'; stdout := stdout s' |}
    | Ret (None, _) _ => Panic nil_dereference
    | Panic p => Panic p
    | OutOfFuel => OutOfFuel
    end.
Proof.
  unfold AzureTokenSource_Token, bind.
  destruct (acquire s) as [[[p |] err] s' | |]; reflexivity.
Qed.

Lemma acquire_start_fails s deviceCode err w :
  Adal.InitiateDeviceAuth adal (oauthConfig (ts s)) (clientID (ts s)) (resource (ts s))
    (idp s) = ((deviceCode, Some err), w) ->
  acquire s
  = Ret (None, Some (fmt_Errorf "Failed to start device auth flow: %s" err))
      {| ts := ts s; idp := w; stdout := stdout s |}.
Proof.
  intros Hinit. unfold acquireTokenDeviceCodeFlow, bind, read, call.
  by rewrite Hinit.
Qed.

(** C4.  When the device flow cannot be started,
    [acquireTokenDeviceCodeFlow] returns a nil token with the error, and
    [Token] then dereferences the nil [ts.spt] in line 49: it panics
    instead of returning the error. *)
Theorem Token_panics_when_acquisition_fails s deviceCode err w :
  Adal.InitiateDeviceAuth adal (oauthConfig (ts s)) (clientID (ts s)) (resource (ts s))
    (idp s) = ((deviceCode, Some err), w) ->
  acquire s
  = Ret (None, Some (fmt_Errorf "Failed to start device auth flow: %s" err))
      {| ts := ts s; idp := w; stdout := stdout s |} /\
  AzureTokenSource_Token adal global_resource s = Panic nil_dereference.
Proof.
  intros Hinit. pose proof (acquire_start_fails s deviceCode err w Hinit) as Hacq.
  split; [exact Hacq |]. by rewrite Token_unfold, Hacq.
Qed.

End Azure.

Section FetchTokens.
Import TokenSrc.
Context {T : Type} (tokenSource : TokenSource T).

Local Abbreviation recorded := (recording tokenSource).

Lemma record_call_Ret {A} c (m : M T A) t calls a t' calls' :
  record_call c m (t, calls) = Ret a (t', calls') ->
  m t = Ret a t' /\ calls' = calls ++ [c].
Proof.
  unfold record_call. simpl. destruct (m t); intros; by simplify_eq.
Qed.

(** With [num] at the top of [int] the test [i <= num] never fails. *)
Lemma fetchTokens_loop_no_exit (S' : Type) (src : TokenSource S') fuel i num tokens s r s' :
  max_int ≤ num -> min_int ≤ i ≤ max_int ->
  fetchTokens_loop src fuel i num tokens s = Ret (r, None) s' -> False.
Proof.
  intros Hnum. revert i tokens s.
  induction fuel as [| fuel IH]; intros i tokens s Hi; simpl.
  all: case_bool_decide; [| lia].
  - done.
  - unfold bind. destruct (Refresh s) as [[token [err |]] s1 | |]; try done.
    apply IH. apply wrap_int_range.
Qed.

Lemma fetchTokens_loop_recorded fuel i num tokens t calls r t' calls' :
  2 ≤ i ≤ num + 1 -> i ≤ max_int ->
  Z.of_nat (length tokens) = i - 1 ->
  fetchTokens_loop recorded fuel i num tokens (t, calls) = Ret (r, None) (t', calls') ->
  fetchTokens_loop tokenSource fuel i num tokens t = Ret (r, None) t' /\
  Z.of_nat (length r) = num /\
  calls' = calls ++ replicate (Z.to_nat (num + 1 - i)) CallRefresh.
Proof.
  revert i tokens t calls.
  induction fuel as [| fuel IH]; intros i tokens t calls Hi Hmax Hlen; simpl.
  all: case_bool_decide as Hle.
  - done.
  - intros [= <- <- <-]. replace (num + 1 - i) with 0 by lia.
    simpl. rewrite app_nil_r. split_and!; [done | lia | done].
  - unfold bind, record_call. simpl.
    destruct (Refresh t) as [[token [err |]] t1 | |] eqn:Href; try done.
    destruct (decide (i = max_int)) as [-> | Hne].
    + intros Hloop. exfalso.
      eapply (fetchTokens_loop_no_exit _ recorded); [| | exact Hloop].
      * lia.
      * apply wrap_int_range.
    + assert (min_int ≤ i + 1 ≤ max_int) as Hin
        by (unfold min_int, max_int in *; lia).
      rewrite (wrap_int_small _ Hin). intros Hloop.
      apply IH in Hloop as (Hplain & Hr & ->); [| lia | lia |].
      * split_and!; [done | done |].
        rewrite <- app_assoc. f_equal.
        replace (Z.to_nat (num + 1 - i)) with (S (Z.to_nat (num + 1 - (i + 1)))) by lia.
        done.
      * rewrite length_app. simpl. lia.
  - intros [= <- <- <-]. replace (num + 1 - i) with 0 by lia.
    simpl. rewrite app_nil_r. split_and!; [done | lia | done].
Qed.


Context {world : Type} (adal : Adal.API world).

End FetchTokens.

Lemma Token_panics_when_acquisition_fails_witness :
  Adal.InitiateDeviceAuth offline
    (TokenSrc.oauthConfig (TokenSrc.ts (fresh tt)))
    (TokenSrc.clientID (TokenSrc.ts (fresh tt)))
    (TokenSrc.resource (TokenSrc.ts (fresh tt))) (TokenSrc.idp (fresh tt))
  = ((None, Some (lib_error "dial tcp: no route to host")), tt) /\
  TokenSrc.AzureTokenSource_Token offline example_URL (fresh tt) = Panic nil_dereference.
Proof.
  split; [reflexivity |].
  by destruct (Token_panics_when_acquisition_fails offline example_URL (fresh tt) None
                 (lib_error "dial tcp: no route to host") tt eq_refl) as [_ Hpanic].
Defined.


(** * Further properties *)

Import Account Samples.

(** ** More on the probe executor *)

(** X1.  [get] calls the transport at most once: [RoundTrip] is called
    once when the request can be built, never for the target of a
    redirect, and not at all when [http.NewRequest] fails.  A non-nil
    error always comes with status 0, and a nil error with the status of
    the first response, which is then not one that the client would follow
    as a redirect. *)
Theorem get_one_round_trip_one_outcome URL token x :
  ((get_calls URL token x).2 ≤ 1)%nat /\
  ((get_calls URL token x).2 = 0%nat <-> is_Some (request_error x)) /\
  (forall status err, get URL token x = (status, Some err) -> status = 0) /\
  (forall status, get URL token x = (status, None) ->
     request_error x = None /\
     exists r rest,
       round_trips x = RoundTripResponse r :: rest /\
       StatusCode r = status /\ followed r = false).
Proof.
  split_and!.
  - rewrite get_calls_cases. destruct (request_error x); simpl; [lia |].
    destruct (round_trips x) as [| [e | r] rest]; simpl; try lia.
    destruct (followed r); [destruct (Location r) |]; simpl; lia.
  - rewrite get_calls_cases. destruct (request_error x); simpl; [by eauto |].
    split; [| by intros [? ?]].
    destruct (round_trips x) as [| [e | r] rest]; simpl; try done.
    destruct (followed r); [destruct (Location r) |]; simpl; done.
  - intros status err. apply get_error_status.
  - intros status. apply get_nil_error.
Qed.

(** ** The bookkeeping of a run *)

Lemma count_app {A} (p : A -> bool) (l k : list A) :
  count p (l ++ k) = (count p l + count p k)%nat.
Proof. induction l as [| a l IH]; simpl; [done | rewrite IH; lia]. Qed.

Lemma count_insert {A} (p : A -> bool) (l : list A) i a b :
  l !! i = Some a ->
  (count p (<[i := b]> l) + (if p a then 1 else 0)
   = count p l + (if p b then 1 else 0))%nat.
Proof.
  revert i. induction l as [| c l IH]; intros [| i] Hi; simplify_eq /=.
  - lia.
  - specialize (IH i Hi). lia.
Qed.

Lemma count_le_length {A} (p : A -> bool) (l : list A) : (count p l ≤ length l)%nat.
Proof. induction l as [| a l IH]; simpl; [lia | destruct (p a); lia]. Qed.

Section Accounting.
Variables (URL token : string) (parallelRequests : Z).

Local Abbreviation step := (step URL token parallelRequests).
Local Abbreviation exec := (exec URL token parallelRequests).
Local Abbreviation reaches := (reaches URL token parallelRequests).

Lemma account_inv_init aborted t0 : account_inv parallelRequests (init aborted t0).
Proof.
  split; simpl; try done.
  - split; simpl; constructor.
  - lia.
Qed.

Lemma senders_insert (q : list (nat * error)) (ws : list worker) i w :
  Forall (fun ie => ws !! ie.1 = Some (WSendErr ie.2)) q ->
  i ∉ (q.*1) ->
  Forall (fun ie => <[i := w]> ws !! ie.1 = Some (WSendErr ie.2)) q.
Proof.
  intros Hall Hi. rewrite Forall_forall in *. intros [j e] Hin. simpl.
  rewrite list_lookup_insert_ne; [by apply (Hall (j, e)) |].
  intros ->. apply Hi. apply list_elem_of_fmap. by exists (j, e).
Qed.

Lemma senders_absent (q : list (nat * error)) (ws : list worker) i w :
  Forall (fun ie => ws !! ie.1 = Some (WSendErr ie.2)) q ->
  ws !! i = Some w -> (forall e, w ≠ WSendErr e) ->
  i ∉ (q.*1).
Proof.
  intros Hall Hi Hw Hin. apply list_elem_of_fmap in Hin as ([j e] & -> & Hin).
  rewrite Forall_forall in Hall. specialize (Hall _ Hin). simpl in Hall, Hi.
  rewrite Hi in Hall. injection Hall as ->. by apply (Hw e).
Qed.

Ltac count_facts :=
  repeat match goal with
  | H : workers ?s !! ?i = Some ?a |- context [<[?i := ?b]> (workers ?s)] =>
      lazymatch goal with
      | _ : (count holding (<[i := b]> (workers s)) + _ = _)%nat |- _ => fail
      | _ =>
          pose proof (count_insert holding _ _ _ b H);
          pose proof (count_insert finishing _ _ _ b H)
      end
  end.

Lemma account_inv_step l s s' :
  account_inv parallelRequests s -> step l s = Some s' -> account_inv parallelRequests s'.
Proof.
  intros Hinv Hstep.
  step_cases Hstep.
  all: repeat match goal with
       | H : bool_decide _ = true |- _ => apply bool_decide_eq_true in H
       | H : bool_decide _ = false |- _ => apply bool_decide_eq_false in H
       end.
  all: destruct Hinv as [[Hnd Hall] Hprobes Hroom Hwg Hworkers].
  all: repeat match goal with
       | H : main _ = _ |- _ => rewrite H in Hworkers
       | H : ratelimitProbes _ = _ |- _ => rewrite H in Hprobes, Hroom; try rewrite H
       end.
  all: repeat match goal with
       | |- context [if ?b then _ else _] => destruct b eqn:?
       end.
  all: simpl in *.
  all: try match goal with
       | H : errorChan _ = (_, _) :: _ |- _ =>
           rewrite H in Hnd, Hall; simpl in Hnd;
           apply NoDup_cons in Hnd as [Hfresh Hnd];
           apply Forall_cons in Hall as [Hblocked Hall]; simpl in Hblocked
       end.
  all: try match goal with
       | H : workers _ !! _ = Some _ |- _ =>
           pose proof (senders_absent _ _ _ _ Hall H ltac:(done)) as Hfresh
       end.
  all: split; unfold senders_ok, completed; simpl.
  all: try match goal with H : ratelimitProbes _ = _ |- _ => rewrite H end.
  all: rewrite ?length_app, ?length_insert, ?count_app; simpl.
  all: count_facts; simpl in *.
  all: try (split_and?; first [done | lia]).
  all: try (intros Hp; specialize (Hwg Hp); unfold completed in Hwg; lia).
  all: try (split; [done | by apply senders_insert]).
  all: try match goal with
       | H : main _ = _ |- context [main _] => rewrite H; first [done | lia]
       end.
  all: try (destruct (main s); [| done ..];
            match goal with
            | H : workers _ !! _ = Some _ |- _ => by rewrite Hworkers in H
            end).
  - rewrite Hworkers. simpl. lia.
  - split; [done |]. eapply Forall_impl; [exact Hall |].
    intros [j e] Hj. by apply lookup_app_l_Some.
  - split.
    + rewrite fmap_app. apply NoDup_app. split_and!; [done | | by apply NoDup_singleton].
      intros j Hj Hj'. apply list_elem_of_singleton in Hj'. by subst.
    + apply Forall_app. split; [by apply senders_insert |].
      repeat constructor. simpl. apply list_lookup_insert_eq. by eapply lookup_lt_Some.
Qed.

Lemma account_inv_reaches aborted t0 s :
  reaches (init aborted t0) s -> account_inv parallelRequests s.
Proof.
  intros [ls Hls]. eapply exec_invariant; [| apply (account_inv_init aborted t0) | exact Hls].
  intros l s1 s2. apply account_inv_step.
Qed.

(** X2.  The probes sent on [ratelimitProbes] are all accounted for: each is
    in the buffer, or held by a worker inside [get], or its [get] has
    returned.  The buffer holds at most [parallelRequests] probes and there
    are at most [parallelRequests] workers, so the dispatcher is never more
    than twice [parallelRequests] probes ahead of the answers. *)
Theorem probes_accounted aborted t0 s :
  reaches (init aborted t0) s ->
  dispatched s
  = (length (ratelimitProbes s) + count holding (workers s) + executed s)%nat /\
  Z.of_nat (length (ratelimitProbes s)) ≤ Z.max 0 parallelRequests /\
  Z.of_nat (length (workers s)) ≤ Z.max 0 parallelRequests /\
  Z.of_nat (dispatched s) - Z.of_nat (executed s) ≤ 2 * Z.max 0 parallelRequests.
Proof.
  intros Hreach.
  destruct (account_inv_reaches _ _ _ Hreach) as [_ Hprobes Hroom _ Hworkers].
  assert (Z.of_nat (length (workers s)) ≤ Z.max 0 parallelRequests) as Hlen.
  { destruct (main s); rewrite ?Hworkers; simpl; lia. }
  pose proof (count_le_length holding (workers s)).
  split_and!; [done | done | done | lia].
Qed.

(** X3.  What the counter of [wg] stands for: the number of workers started
    minus the number of probes handled to the end of the loop body.  So the
    [wg.Done()] of a worker panics exactly when as many probes as there are
    workers have been completed before, and the deferred [wg.Wait()] lets
    [measureRatelimit] return only in a state in which exactly
    [parallelRequests] probes have been completed. *)
Theorem wg_counts_workers_minus_probes aborted t0 s :
  reaches (init aborted t0) s ->
  panicked s = None ->
  wg s = Z.of_nat (length (workers s)) - completed s /\
  (forall i s', step (Done i) s = Some s' ->
     (panicked s' = Some negative_WaitGroup <-> Z.of_nat (length (workers s)) ≤ completed s)) /\
  (forall s', step Wait s = Some s' ->
     main s' = DReturned /\ completed s = Z.max 0 parallelRequests).
Proof.
  intros Hreach Hrun.
  destruct (account_inv_reaches _ _ _ Hreach) as [_ _ _ Hwg Hworkers].
  specialize (Hwg Hrun). split_and!; [done | |].
  - intros i s'. rewrite step_unfold by done. unfold step_Done, crash.
    destruct (workers s !! i) as [[] |]; try done.
    case_bool_decide; intros [= <-]; simpl; split; try done; try lia.
    by rewrite Hrun.
  - intros s'. rewrite step_unfold by done. unfold step_Wait.
    destruct (main s) eqn:Hmain; try done.
    case_bool_decide; [| done]. intros [= <-]. split; [done | lia].
Qed.

End Accounting.

(** ** What the dispatch loop counts and when it stops *)

(** Whether [get] fails, and with which status it succeeds, depends on the
    answers only, not on the URL or the token. *)
Lemma get_status_any u t u' t' x status :
  get u t x = (status, None) -> get u' t' x = (status, None).
Proof.
  intros (Hreq & r & rest & Hrt & <- & Hno)%get_nil_error.
  by eapply get_status.
Qed.

Lemma get_error_any u t u' t' x status err :
  get u t x = (status, Some err) -> exists err', get u' t' x = (0, Some err').
Proof.
  unfold get. rewrite !get_calls_cases.
  destruct (request_error x); [by eauto |].
  destruct (round_trips x) as [| [e | r] rest]; simpl; try by eauto.
  destruct (followed r); simpl; [| done].
  destruct (Location r); by eauto.
Qed.


Section Counting.
Variables (URL token : string) (parallelRequests : Z).

Local Abbreviation step := (step URL token parallelRequests).
Local Abbreviation exec := (exec URL token parallelRequests).
Local Abbreviation reaches := (reaches URL token parallelRequests).





End Counting.

Section Stopping.
Variables (URL token : string) (parallelRequests : Z).

Local Abbreviation step := (step URL token parallelRequests).
Local Abbreviation exec := (exec URL token parallelRequests).
Local Abbreviation reaches := (reaches URL token parallelRequests).

Lemma calm_step l s s' :
  calm URL token l = true -> step l s = Some s' ->
  signalled s = false -> Run.looping (main s) = true ->
  signalled s' = false /\ Run.looping (main s') = true.
Proof.
  unfold signalled. intros Hcalm Hstep Hsig Hloop.
  apply orb_false_elim in Hsig as [Hsig Herr].
  apply orb_false_elim in Hsig as [Hrl Hab].
  apply negb_false_iff, bool_decide_eq_true in Herr.
  step_cases Hstep; simpl in *; try done.
  all: try match goal with
       | H : get _ _ _ = (_, None), H' : context [get URL token _] |- _ =>
           rewrite (get_status_any _ _ URL token _ _ H) in H'
       | H : get _ _ _ = (_, Some _), H' : context [get URL token _] |- _ =>
           let Hg := fresh in
           destruct (get_error_any _ _ URL token _ _ _ H) as [? Hg];
           rewrite Hg in H'
       end.
  all: repeat match goal with
       | H : bool_decide _ = true |- _ => apply bool_decide_eq_true in H
       | H : bool_decide _ = false |- _ => apply bool_decide_eq_false in H
       | H : negb _ = true |- _ => apply negb_true_iff in H
       | H : main _ = _ |- _ => rewrite H in *
       end.
  all: simpl in *; try done; try congruence.
  all: rewrite ?Hrl, ?Hab, ?Herr; simpl; try done.
  all: repeat case_match; simpl; rewrite ?Hrl, ?Hab, ?Herr; try done; try congruence.
  all: by rewrite bool_decide_eq_true_2.
Qed.

(** A run panics in three ways only; it never sends on the closed
    [ratelimitProbes] and never closes it twice. *)
Lemma panic_cause_step l s s' :
  run_inv s -> step l s = Some s' -> panic_cause parallelRequests s'.
Proof.
  intros [Hloop _ _ _ _] Hstep. unfold panic_cause.
  step_cases Hstep; simpl; try done.
  all: repeat match goal with
       | H : bool_decide _ = true |- _ => apply bool_decide_eq_true in H
       | H : main _ = _ |- _ => rewrite H in Hloop
       end.
  all: simpl in *; try (destruct (Hloop eq_refl) as [Hopen _]); try congruence.
  all: rewrite ?Hopen; simpl; try done.
  all: repeat case_match; simpl in *; try done; try congruence.
Qed.

Lemma panic_cause_reaches aborted t0 s :
  reaches (init aborted t0) s -> panic_cause parallelRequests s.
Proof.
  intros [ls Hls].
  assert (run_inv s /\ panic_cause parallelRequests s) as [_ H]; [| exact H].
  eapply (exec_invariant URL token parallelRequests
            (fun s => run_inv s /\ panic_cause parallelRequests s)); [| | exact Hls].
  - intros l s1 s2 [Hinv _] Hstep. split.
    + by eapply run_inv_step.
    + by eapply panic_cause_step.
  - split; [apply run_inv_init | done].
Qed.

(** X5.  Without a termination signal the run never leaves its dispatch
    loop: as long as [abort] is not closed and no [get] returns an error
    or status 429, the dispatcher is in its loop, whatever the
    interleaving, with [ratelimitProbes] open and nothing logged.  Such a
    run can still stop, but only by a panic: that of [makechan] at the
    start, or that of a [wg.Done()] that makes the counter negative. *)
Theorem no_signal_no_termination t0 ls s :
  Forall (fun l => calm URL token l = true) ls ->
  exec ls (init false t0) = Some s ->
  Run.looping (main s) = true /\ signalled s = false /\
  probes_closed s = false /\ output s = [] /\
  (panicked s = None \/
   panicked s = Some makechan_size /\ main s = DStart \/
   panicked s = Some negative_WaitGroup /\ wg s < 0).
Proof.
  intros Hcalm Hexec.
  assert (signalled s = false /\ Run.looping (main s) = true) as [Hsig Hloop].
  { revert Hexec.
    assert (signalled (init false t0) = false /\ Run.looping (main (init false t0)) = true)
      as Hinit by done.
    revert Hinit. generalize (init false t0).
    induction Hcalm as [| l ls Hl _ IH]; intros s0 [Hs0 Hl0]; simpl.
    - by intros [= <-].
    - destruct (step l s0) as [s1 |] eqn:Hstep; [| done].
      apply IH. by eapply calm_step. }
  assert (reaches (init false t0) s) as Hreach by by exists ls.
  destruct (run_inv_reaches _ _ _ _ _ _ Hreach) as [Hinv _ _ _ _].
  destruct (Hinv Hloop). split_and!; try done.
  pose proof (panic_cause_reaches _ _ _ Hreach) as Hcause.
  unfold panic_cause in Hcause. unfold signalled in Hsig.
  destruct (panicked s) as [[] |]; try done; try (by left).
  - rewrite Hcause in Hsig. discriminate Hsig.
  - right. by right.
  - right. left. by destruct Hcause.
Qed.

Lemma stopping_iff s :
  stopping s = true <->
  ratelimitReached s = true \/ abort s = true \/ errorChan s ≠ [] \/
  Run.looping (main s) = false.
Proof.
  unfold stopping, signalled.
  rewrite !orb_true_iff, negb_true_iff, negb_true_iff, bool_decide_eq_false. tauto.
Qed.

Lemma stopping_step l s s' :
  stopping s = true -> step l s = Some s' ->
  stopping s' = true /\ (committed s' ≤ committed s)%nat.
Proof.
  intros Hstop Hstep. apply stopping_iff in Hstop.
  step_cases Hstep.
  all: rewrite stopping_iff; unfold committed.
  all: simpl.
  all: repeat match goal with
       | |- context [if ?b then _ else _] => destruct b eqn:?
       end.
  all: simpl in *.
  all: repeat match goal with
       | H : main _ = _ |- _ => rewrite H in *
       end; simpl in *.
  all: try match goal with
       | H : _ || _ = false |- _ =>
           apply orb_false_elim in H as [? ?]; exfalso;
           destruct Hstop as [? | [? | [? | ?]]]; congruence
       end.
  all: split; [| try lia; try (destruct (main s); lia)].
  all: try (right; right; left; by destruct (errorChan s)).
  all: try (right; right; right; done).
  all: try (by left).
  all: try (destruct Hstop as [? | [? | [? | ?]]];
            first [by left | by right; left | by right; right; left
                  | by right; right; right | congruence]).
Qed.

(** X6.  Once a termination signal is ready, or the loop has been left, the
    dispatcher sends at most the one probe it may already be about to
    send: the number of probes sent never exceeds the number sent so far,
    plus one if the dispatcher stands at the send of line 131. *)
Theorem signal_stops_dispatch ls s s' :
  stopping s = true -> exec ls s = Some s' ->
  stopping s' = true /\ (dispatched s' ≤ committed s)%nat.
Proof.
  revert s. induction ls as [| l ls IH]; intros s Hstop; simpl.
  - intros [= <-]. split; [done |]. unfold committed. lia.
  - destruct (step l s) as [s1 |] eqn:Hl; [| done]. intros Hrest.
    destruct (stopping_step l s s1 Hstop Hl) as [Hstop1 Hle].
    destruct (IH s1 Hstop1 Hrest) as [Hstop' Hle']. split; [done | lia].
Qed.

(** X7.  A worker blocked in [errorChan <- err] when the dispatcher is no
    longer in its loop stays blocked for ever: nothing receives from
    [errorChan] any more, so the goroutine never finishes. *)
Theorem blocked_sender_never_released ls s s' i err :
  Run.looping (main s) = false ->
  workers s !! i = Some (WSendErr err) ->
  exec ls s = Some s' ->
  Run.looping (main s') = false /\ workers s' !! i = Some (WSendErr err).
Proof.
  revert s. induction ls as [| l ls IH]; intros s Hleft Hi; simpl.
  - by intros [= <-].
  - destruct (step l s) as [s1 |] eqn:Hl; [| done].
    apply IH; step_cases Hl; simpl in *.
    all: repeat match goal with
         | H : main _ = _ |- _ => rewrite H in *
         end; simpl in *; try done.
    all: try by repeat case_match.
    all: try (rewrite list_lookup_insert_ne; [done | congruence]).
    all: repeat case_match; simpl; try done.
    all: rewrite list_lookup_insert_ne; [done | congruence].
Qed.
End Stopping.

(** ** More on the token source *)

Section AzureMore.
Import TokenSrc.
Context {world : Type} (adal : Adal.API world) (global_resource : string).

Local Abbreviation acquire := (acquireTokenDeviceCodeFlow adal global_resource).
Local Abbreviation Token_ := (AzureTokenSource_Token adal global_resource).
Local Abbreviation Refresh_ := (AzureTokenSource_Refresh adal).

(** What [acquireTokenDeviceCodeFlow] returns when it returns: either a
    nil token with the error of the first or the second step, or, the
    device message having been printed, the result of
    [NewServicePrincipalTokenFromManualToken], called with the
    package-level [resource]. *)
Lemma acquire_Ret s r s' :
  acquire s = Ret r s' ->
  ts s' = ts s /\
  ((r.1 = None /\ is_Some r.2) \/
   (exists message token,
      stdout s' = stdout s ++ [message] /\
      r = Adal.NewServicePrincipalTokenFromManualToken adal (oauthConfig (ts s))
            (clientID (ts s)) global_resource token)).
Proof.
  unfold acquireTokenDeviceCodeFlow, bind, read, call, deref, Println, ret, raise.
  destruct (Adal.InitiateDeviceAuth _ _ _ _ _) as [[deviceCode [err |]] w1].
  { intros [= <- <-]. simpl. split; [reflexivity |]. left.
    split; [reflexivity | by eexists]. }
  destruct deviceCode as [deviceCode |]; [| done].
  destruct (Adal.Message deviceCode) as [message |]; [| done]. simpl.
  destruct (Adal.WaitForUserCompletion _ _ _) as [[token [err |]] w2]; simpl.
  { intros [= <- <-]. simpl. split; [reflexivity |]. left.
    split; [reflexivity | by eexists]. }
  destruct token as [token |]; [| done].
  intros [= <- <-]. simpl. split; [done |]. right. by eauto.
Qed.

(** X8.  [Token] cannot report that the device flow failed.  When it returns,
    a service principal token is stored in [ts.spt], the token returned is
    its access token, the configuration of the source is unchanged, and a
    non-nil error can only be one returned, together with a token, by
    [NewServicePrincipalTokenFromManualToken]. *)
Theorem Token_returns_only_with_spt s token err s' :
  AzureTokenSource_Token adal global_resource s = Ret (token, err) s' ->
  exists p manual,
    spt (ts s') = Some p /\
    token = Adal.AccessToken (Adal.spt_Token p) /\
    Adal.NewServicePrincipalTokenFromManualToken adal (oauthConfig (ts s))
      (clientID (ts s)) global_resource manual = (Some p, err) /\
    oauthConfig (ts s') = oauthConfig (ts s) /\
    clientID (ts s') = clientID (ts s) /\
    resource (ts s') = resource (ts s).
Proof.
  rewrite Token_unfold.
  destruct (acquire s) as [[[p |] e] s1 | |] eqn:Hacq; try done.
  intros [= <- <- <-]. simpl.
  destruct (acquire_Ret _ _ _ Hacq) as [Hts [[Hnil _] | (message & manual & _ & Hnew)]];
    [done |].
  exists p, manual. rewrite Hts. by split_and!.
Qed.

(** X9.  [Token] followed by [Refresh]: when the three steps of the device
    flow succeed, [Token] prints the device message, stores the new
    service principal token and returns its access token; a [Refresh]
    after it does not return the usage error but the refreshed access
    token, with the error of the library if any, and stores the refreshed
    token. *)
Theorem Token_then_Refresh s deviceCode message w1 manual w2 p err :
  Adal.InitiateDeviceAuth adal (oauthConfig (ts s)) (clientID (ts s)) (resource (ts s))
    (idp s) = ((Some deviceCode, None), w1) ->
  Adal.Message deviceCode = Some message ->
  Adal.WaitForUserCompletion adal deviceCode w1 = ((Some manual, None), w2) ->
  Adal.NewServicePrincipalTokenFromManualToken adal (oauthConfig (ts s)) (clientID (ts s))
    global_resource manual = (Some p, err) ->
  exists s1,
    AzureTokenSource_Token adal global_resource s
    = Ret (Adal.AccessToken (Adal.spt_Token p), err) s1 /\
    spt (ts s1) = Some p /\ idp s1 = w2 /\ stdout s1 = stdout s ++ [message] /\
    forall p' err' w3,
      Adal.ServicePrincipalToken_Refresh adal p w2 = ((p', err'), w3) ->
      exists s2,
        AzureTokenSource_Refresh adal s1
        = Ret (Adal.AccessToken (Adal.spt_Token p'), err') s2 /\
        spt (ts s2) = Some p' /\ idp s2 = w3 /\ stdout s2 = stdout s1.
Proof.
  intros Hinit Hmsg Hwait Hnew.
  eexists. split; [| split_and!].
  - unfold AzureTokenSource_Token, acquireTokenDeviceCodeFlow, bind, read, call, deref,
      Println, ret, set_spt.
    rewrite Hinit. simpl. rewrite Hmsg. simpl. rewrite Hwait. simpl. rewrite Hnew.
    simpl. reflexivity.
  - done.
  - done.
  - done.
  - intros p' err' w3 Href. eexists. split.
    + unfold AzureTokenSource_Refresh, bind, read, call, set_spt, ret. simpl.
      rewrite Href. simpl. reflexivity.
    + by split_and!.
Qed.

(** X10.  [Refresh] leaves the configuration of the source alone, prints
    nothing, and never turns a stored token into nil. *)
Theorem Refresh_keeps_source s r s' :
  AzureTokenSource_Refresh adal s = Ret r s' ->
  oauthConfig (ts s') = oauthConfig (ts s) /\
  clientID (ts s') = clientID (ts s) /\
  resource (ts s') = resource (ts s) /\
  stdout s' = stdout s /\
  (is_Some (spt (ts s)) -> is_Some (spt (ts s'))) /\
  (spt (ts s) = None -> s' = s /\ r.1 = "" /\ is_Some r.2).
Proof.
  unfold AzureTokenSource_Refresh, bind, read, call, set_spt, ret.
  destruct (spt (ts s)) as [p |] eqn:Hspt.
  - destruct (Adal.ServicePrincipalToken_Refresh adal p (idp s)) as [[p' err] w].
    simpl. intros [= <- <-]. simpl. by split_and!.
  - intros [= <- <-]. split_and!; try done. all: try by intros [? ?]. all: by eauto.
Qed.

(** X11.  A source made by [NewAzureTokenSource] holds no token: a [Refresh]
    on it returns the usage error and changes nothing.  When
    [NewOAuthConfig] fails, no source is made and the error is returned. *)
Theorem NewAzureTokenSource_holds_no_token tenantID clientID_ resource_ :
  (forall src err,
     NewAzureTokenSource adal tenantID clientID_ resource_ = (Some src, err) ->
     err = None /\ spt src = None /\ clientID src = clientID_ /\ resource src = resource_ /\
     forall w out,
       Refresh_ {| ts := src; idp := w; stdout := out |}
       = Ret ("", Some (errors_New
                          "service principal token is nil. call Token() before Refresh()"))
           {| ts := src; idp := w; stdout := out |}) /\
  (forall cfg err,
     Adal.NewOAuthConfig adal authority tenantID = (cfg, Some err) ->
     NewAzureTokenSource adal tenantID clientID_ resource_ = (None, Some err)).
Proof.
  unfold NewAzureTokenSource. split.
  - intros src err.
    destruct (Adal.NewOAuthConfig adal authority tenantID) as [[cfg |] [e |]]; try done.
    intros [= <- <-]. by split_and!.
  - intros cfg err ->. by destruct cfg.
Qed.
End AzureMore.

(** ** More on [fetchTokens] *)

Section FetchMore.
Import TokenSrc.
Context {T : Type} (tokenSource : TokenSource T).

Local Abbreviation recorded := (recording tokenSource).

(** Recording the calls does not change what is computed. *)
Lemma fetchTokens_loop_recording fuel i num tokens t calls r t' :
  fetchTokens_loop tokenSource fuel i num tokens t = Ret r t' ->
  exists calls', fetchTokens_loop recorded fuel i num tokens (t, calls) = Ret r (t', calls').
Proof.
  revert i tokens t calls.
  induction fuel as [| fuel IH]; intros i tokens t calls; simpl.
  all: case_bool_decide; try done.
  1, 3: intros [= <- <-]; by eexists.
  unfold bind, record_call. simpl.
  destruct (Refresh t) as [[token [err |]] t1 | |]; try done.
  - intros [= <- <-]. by eexists.
  - apply IH.
Qed.

Lemma fetchTokens_recording fuel num t calls r t' :
  fetchTokens tokenSource fuel num t = Ret r t' ->
  exists calls', fetchTokens recorded fuel num (t, calls) = Ret r (t', calls').
Proof.
  unfold fetchTokens, bind. simpl. unfold record_call. simpl.
  destruct (Token t) as [[token [err |]] t1 | |]; try done.
  - intros [= <- <-]. by eexists.
  - apply fetchTokens_loop_recording.
Qed.

Lemma fetchTokens_length fuel num t tokens t' :
  1 ≤ num ->
  fetchTokens tokenSource fuel num t = Ret (tokens, None) t' ->
  Z.of_nat (length tokens) = num.
Proof.
  intros Hnum Hfetch.
  destruct (fetchTokens_recording fuel num t [] _ _ Hfetch) as [calls' Hrec].
  revert Hrec. unfold fetchTokens, bind. simpl. unfold record_call. simpl.
  destruct (Token t) as [[token [err |]] t1 | |]; try done.
  intros Hloop.
  apply fetchTokens_loop_recorded in Hloop; [| lia | unfold max_int; lia | done].
  by destruct Hloop as (_ & Hlen & _).
Qed.

(** When a call fails, the loop stops there and the tokens obtained so
    far are dropped. *)
Lemma fetchTokens_loop_error fuel i num tokens t calls r err t' calls' :
  fetchTokens_loop recorded fuel i num tokens (t, calls) = Ret (r, Some err) (t', calls') ->
  r = [] /\
  exists k t0 token,
    calls' = calls ++ replicate (S k) CallRefresh /\
    Z.of_nat k ≤ Z.of_nat fuel /\
    Refresh t0 = Ret (token, Some err) t'.
Proof.
  revert i tokens t calls.
  induction fuel as [| fuel IH]; intros i tokens t calls; simpl.
  all: case_bool_decide; try done.
  unfold bind, record_call. simpl.
  destruct (Refresh t) as [[token [e |]] t1 | |] eqn:Href; try done.
  - intros [= <- <- <- <-]. split; [done |]. exists 0%nat, t, token.
    split_and!; [done | lia | done].
  - intros Hloop. apply IH in Hloop as (-> & k & t0 & token' & -> & Hk & Hlast).
    split; [done |]. exists (S k), t0, token'. split_and!; [| lia | done].
    rewrite <- app_assoc. done.
Qed.

(** X12.  How [fetchTokens] ends when it returns an error: no token is
    returned, even if some had been obtained; the error is the one of the
    last call made, which is [Token] itself or a [Refresh] after it; and
    no call follows the one that failed. *)
Theorem fetchTokens_stops_at_first_error fuel num t calls tokens err t' calls' :
  fetchTokens recorded fuel num (t, calls) = Ret (tokens, Some err) (t', calls') ->
  tokens = [] /\
  ((calls' = calls ++ [CallToken] /\ exists token, Token t = Ret (token, Some err) t') \/
   (exists k t0 token,
      calls' = calls ++ CallToken :: replicate (S k) CallRefresh /\
      Refresh t0 = Ret (token, Some err) t')).
Proof.
  unfold fetchTokens, bind. simpl. unfold record_call. simpl.
  destruct (Token t) as [[token [e |]] t1 | |] eqn:Htok; try done.
  - intros [= <- <- <- <-]. split; [done |]. left. by eauto.
  - intros Hloop.
    apply fetchTokens_loop_error in Hloop as (-> & k & t0 & token' & -> & _ & Hlast).
    split; [done |]. right. exists k, t0, token'. split; [| done].
    by rewrite <- app_assoc.
Qed.

(** X13.  With [num] below 2 the loop is not entered: [fetchTokens] calls
    [Token] once and returns its token alone, also for [num] zero or
    negative. *)
Theorem fetchTokens_one_token_at_least fuel num t calls token t1 :
  num ≤ 1 ->
  Token t = Ret (token, None) t1 ->
  fetchTokens recorded fuel num (t, calls) = Ret ([token], None) (t1, calls ++ [CallToken]).
Proof.
  intros Hnum Htok. unfold fetchTokens, bind. simpl. unfold record_call. simpl.
  rewrite Htok. destruct fuel; simpl; by rewrite bool_decide_eq_false_2 by lia.
Qed.

(** The loop of lines 48-54 with [num] at the top of [int]. *)
Lemma fetchTokens_loop_diverges fuel i num tokens t :
  reliable tokenSource -> max_int ≤ num -> min_int ≤ i ≤ max_int ->
  fetchTokens_loop tokenSource fuel i num tokens t = OutOfFuel.
Proof.
  intros Hok Hnum. revert i tokens t.
  induction fuel as [| fuel IH]; intros i tokens t Hi; simpl.
  all: rewrite bool_decide_eq_true_2 by lia.
  - done.
  - destruct (Hok t) as [_ (token & t1 & Href)].
    unfold bind. rewrite Href. apply IH. apply wrap_int_range.
Qed.

(** X14.  With [num] at the top of [int], the increment of [i] wraps around and
    the test of the loop never fails: against a token source that does not
    fail, [fetchTokens] does not come to an end, whatever the fuel. *)
Theorem fetchTokens_overflow fuel num t :
  reliable tokenSource -> max_int ≤ num ->
  fetchTokens tokenSource fuel num t = OutOfFuel.
Proof.
  intros Hok Hnum. destruct (Hok t) as [(token & t1 & Htok) _].
  unfold fetchTokens, bind. rewrite Htok.
  apply fetchTokens_loop_diverges; [done | done |].
  unfold min_int, max_int. lia.
Qed.

(** A panic of [Token] is a panic of [fetchTokens]. *)
Lemma fetchTokens_Token_panics fuel num t p :
  Token t = Panic p -> fetchTokens tokenSource fuel num t = Panic p.
Proof. intros Htok. unfold fetchTokens, bind. by rewrite Htok. Qed.
End FetchMore.

(** ** [init] and [main] *)

Section Main.
Import TokenSrc ArlMain.
Context {world : Type} (adal : Adal.API world).
Variable ParseRequestURI : string -> option URL_ * option error.
Variables (resource tenantID clientID : string) (numTokens parallelRequests : Z).

Local Abbreviation main_tokens :=
  (main_tokens adal ParseRequestURI resource tenantID clientID numTokens).

(** X15.  When [init] has let the program pass and [main] gets as far as
    starting the measurements, the resource URL has been parsed, at least
    one token has been asked for, and exactly [numTokens] tokens have been
    fetched: [main] starts [numTokens] goroutines, each measuring
    [resource] with [parallelRequests] workers. *)
Theorem main_starts_numTokens_runs fuel st tokens st' :
  init numTokens = None ->
  main_tokens fuel st = Ret (inr tokens) st' ->
  1 ≤ numTokens /\
  is_Some (ParseRequestURI resource).1 /\
  Z.of_nat (length (main_runs resource parallelRequests tokens)) = numTokens /\
  Forall (fun run => run.1.1 = resource /\ run.2 = parallelRequests)
    (main_runs resource parallelRequests tokens).
Proof.
  unfold init. case_bool_decide as Hnum; [done |]. intros _.
  unfold ArlMain.main_tokens, ret, raise.
  destruct (ParseRequestURI resource) as [[resourceURL |] [err |]]; try done.
  destruct (NewAzureTokenSource _ _ _ _) as [[src |] [err |]]; try done.
  destruct (fetchTokens _ _ _ _) as [[toks [err |]] s | |] eqn:Hfetch; try done.
  intros [= <- <-].
  apply fetchTokens_length in Hfetch; [| lia].
  unfold main_runs. rewrite length_fmap. split_and!; [lia | by eexists | done |].
  apply Forall_fmap. by apply Forall_true.
Qed.

(** X16.  The fatal endings of [main]: a resource that does not parse ends the
    program before the identity provider is contacted; and whenever [main]
    ends with a fatal message, it is one of its three messages, with the
    error that caused it. *)
Theorem main_fatal_messages fuel st :
  (forall url err, ParseRequestURI resource = (url, Some err) ->
     main_tokens fuel st
     = Ret (inl (Fatalf "failed to parse the resource URL: %v" [] err)) st) /\
  (forall f st', main_tokens fuel st = Ret (inl f) st' ->
     exists err,
       f = Fatalf "failed to parse the resource URL: %v" [] err \/
       f = Fatalf "failed to create the token source: %v" [] err \/
       f = Fatalf "failed to acquire %d tokens: %v" [numTokens] err).
Proof.
  unfold ArlMain.main_tokens, ret, raise. split.
  - intros url err ->. by destruct url.
  - intros f st'.
    destruct (ParseRequestURI resource) as [[resourceURL |] [err |]]; try done.
    1, 3: intros [= <- <-]; by eauto.
    destruct (NewAzureTokenSource _ _ _ _) as [[src |] [err |]]; try done.
    1, 3: intros [= <- <-]; by eauto.
    destruct (fetchTokens _ _ _ _) as [[toks [err |]] s | |]; try done.
    intros [= <- <-]. by eauto.
Qed.

(** X17.  An identity provider that cannot be reached does not give a fatal
    message: the resource parses and the token source is made, then
    [fetchTokens] calls [Token], which panics. *)
Theorem main_panics_when_device_flow_fails fuel st resourceURL cfg deviceCode err w :
  ParseRequestURI resource = (Some resourceURL, None) ->
  Adal.NewOAuthConfig adal authority tenantID = (Some cfg, None) ->
  Adal.InitiateDeviceAuth adal cfg clientID
    (Scheme resourceURL +:+ "//" +:+ Host resourceURL +:+ "/") st.1
  = ((deviceCode, Some err), w) ->
  main_tokens fuel st = Panic nil_dereference.
Proof.
  intros Hparse Hcfg Hinit.
  unfold ArlMain.main_tokens, NewAzureTokenSource. rewrite Hparse, Hcfg.
  rewrite fetchTokens_Token_panics with (p := nil_dereference); [done |].
  simpl. rewrite Token_unfold.
  by rewrite (acquire_start_fails adal resource _ deviceCode err w).
Qed.
End Main.

(** ** The further properties on examples *)

Lemma get_one_round_trip_one_outcome_witness :
  (get_calls example_URL example_token redirected).2 = 1%nat /\
  get example_URL example_token (answer 503) = (503, None) /\
  followed {| StatusCode := 503; Location := NoLocation |} = false.
Proof.
  destruct (get_one_round_trip_one_outcome example_URL example_token redirected)
    as (Hone & Hzero & _).
  destruct (get_one_round_trip_one_outcome example_URL example_token (answer 503))
    as (_ & _ & _ & Hstatus).
  split; [| split; [reflexivity |]].
  - destruct ((get_calls example_URL example_token redirected).2) as [| [| n]] eqn:Hn.
    + destruct Hzero as [Hzero _]. by destruct (Hzero eq_refl).
    + reflexivity.
    + lia.
  - destruct (Hstatus 503 eq_refl) as (_ & r & rest & Hrt & _ & Hno).
    injection Hrt as <- _. exact Hno.
Defined.

Lemma probes_accounted_witness :
  reaches example_URL example_token 2 (init false 0) (after false 2 warm_up_2) /\
  dispatched (after false 2 warm_up_2) = 2%nat /\
  Z.of_nat (dispatched (after false 2 warm_up_2))
  - Z.of_nat (executed (after false 2 warm_up_2)) ≤ 2 * Z.max 0 2.
Proof.
  assert (reaches example_URL example_token 2 (init false 0) (after false 2 warm_up_2))
    as Hreach by (exists warm_up_2; vm_compute; reflexivity).
  split; [exact Hreach |]. split; [vm_compute; reflexivity |].
  by destruct (probes_accounted example_URL example_token 2 false 0 _ Hreach)
    as (_ & _ & _ & Hahead).
Defined.

Lemma wg_counts_workers_minus_probes_witness :
  reaches example_URL example_token 1 (init false 0) (after false 1 clean_failure) /\
  panicked (after false 1 clean_failure) = None /\
  exists s',
    step example_URL example_token 1 Wait (after false 1 clean_failure) = Some s' /\
    main s' = DReturned /\ completed (after false 1 clean_failure) = 1.
Proof.
  assert (reaches example_URL example_token 1 (init false 0) (after false 1 clean_failure))
    as Hreach by (exists clean_failure; vm_compute; reflexivity).
  assert (panicked (after false 1 clean_failure) = None) as Hrun
    by (vm_compute; reflexivity).
  split; [exact Hreach |]. split; [exact Hrun |].
  destruct (wg_counts_workers_minus_probes example_URL example_token 1 false 0 _
              Hreach Hrun) as (_ & _ & Hwait).
  eexists. split; [vm_compute; reflexivity |].
  match goal with
  | |- main ?s' = _ /\ _ => destruct (Hwait s') as [Hret Hdone]; [vm_compute; reflexivity |]
  end.
  split; [exact Hret |]. rewrite Hdone. reflexivity.
Defined.


Lemma no_signal_no_termination_witness :
  Forall (fun l => calm example_URL example_token l = true) two_successes /\
  exec example_URL example_token 1 two_successes (init false 0)
  = Some (after false 1 two_successes) /\
  output (after false 1 two_successes) = [] /\
  panicked (after false 1 two_successes) = Some negative_WaitGroup.
Proof.
  assert (Forall (fun l => calm example_URL example_token l = true) two_successes)
    as Hcalm by repeat constructor.
  assert (exec example_URL example_token 1 two_successes (init false 0)
          = Some (after false 1 two_successes)) as Hexec
    by (vm_compute; reflexivity).
  split; [exact Hcalm |]. split; [exact Hexec |].
  destruct (no_signal_no_termination example_URL example_token 1 0 two_successes _
              Hcalm Hexec) as (_ & _ & _ & Hout & Hpanic).
  split; [exact Hout |].
  destruct Hpanic as [Hp | [[Hp _] | [Hp _]]].
  - vm_compute in Hp. discriminate Hp.
  - vm_compute in Hp. discriminate Hp.
  - exact Hp.
Defined.

Lemma signal_stops_dispatch_witness :
  stopping (after false 1 backpressure) = true /\
  exists s',
    exec example_URL example_token 1
      [Get 0%nat (answer 200); Done 0%nat; Receive 0%nat; Send]
      (after false 1 backpressure) = Some s' /\
    (dispatched s' ≤ 3)%nat.
Proof.
  assert (stopping (after false 1 backpressure) = true) as Hstop
    by (vm_compute; reflexivity).
  split; [exact Hstop |]. eexists. split; [vm_compute; reflexivity |].
  match goal with
  | |- (dispatched ?s' ≤ _)%nat =>
      destruct (signal_stops_dispatch example_URL example_token 1
                  [Get 0%nat (answer 200); Done 0%nat; Receive 0%nat; Send]
                  (after false 1 backpressure) s' Hstop) as [_ Hle];
        [vm_compute; reflexivity |]
  end.
  exact Hle.
Defined.

Lemma blocked_sender_never_released_witness :
  Run.looping (main (after false 2 error_then_limit)) = false /\
  exists s',
    exec example_URL example_token 2 [Done 1%nat; Tick 3; Receive 1%nat]
      (after false 2 error_then_limit) = Some s' /\
    workers s' !! 0%nat
    = Some (WSendErr (url_Error "Get" example_URL (lib_error "connection refused"))).
Proof.
  split; [vm_compute; reflexivity |].
  eexists. split; [vm_compute; reflexivity |].
  match goal with
  | |- workers ?s' !! _ = _ =>
      eapply (blocked_sender_never_released example_URL example_token 2
                [Done 1%nat; Tick 3; Receive 1%nat] (after false 2 error_then_limit) s')
  end.
  - vm_compute. reflexivity.
  - vm_compute. reflexivity.
  - vm_compute. reflexivity.
Defined.

Lemma Token_returns_only_with_spt_witness :
  exists s',
    TokenSrc.AzureTokenSource_Token issuing example_URL (fresh 0%nat)
    = Ret ("access", None) s' /\
    is_Some (TokenSrc.spt (TokenSrc.ts s')).
Proof.
  eexists. split; [vm_compute; reflexivity |].
  match goal with
  | |- is_Some (TokenSrc.spt (TokenSrc.ts ?s')) =>
      destruct (Token_returns_only_with_spt issuing example_URL (fresh 0%nat)
                  "access" None s') as (p & manual & Hp & _); [vm_compute; reflexivity |]
  end.
  rewrite Hp. by eexists.
Defined.

Lemma Token_then_Refresh_witness :
  exists s1 s2,
    TokenSrc.AzureTokenSource_Token issuing example_URL (fresh 0%nat)
    = Ret ("access", None) s1 /\
    TokenSrc.AzureTokenSource_Refresh issuing s1 = Ret ("access'", None) s2.
Proof.
  destruct (Token_then_Refresh issuing example_URL (fresh 0%nat)
              {| Adal.Message := Some "To sign in, enter the code ABCD";
                 Adal.UserCode := "ABCD" |}
              "To sign in, enter the code ABCD" 0%nat (issued 0) 1%nat
              {| Adal.spt_Token := issued 0; Adal.spt_clientID := "client";
                 Adal.spt_resource := example_URL |} None
              eq_refl eq_refl eq_refl eq_refl)
    as (s1 & Htoken & _ & _ & _ & Hrefresh).
  destruct (Hrefresh {| Adal.spt_Token := issued 1; Adal.spt_clientID := "client";
                        Adal.spt_resource := example_URL |} None 2%nat eq_refl)
    as (s2 & Href & _).
  exists s1, s2. split; [exact Htoken | exact Href].
Defined.

Lemma Refresh_keeps_source_witness :
  exists r s',
    TokenSrc.AzureTokenSource_Refresh expiring (fresh 3%nat) = Ret r s' /\
    TokenSrc.resource (TokenSrc.ts s') = "https://api.example.org/" /\
    TokenSrc.stdout s' = [].
Proof.
  eexists _, _. split; [vm_compute; reflexivity |].
  match goal with
  | |- TokenSrc.resource (TokenSrc.ts ?s') = _ /\ _ =>
      destruct (Refresh_keeps_source expiring (fresh 3%nat)
                  ("", Some (errors_New
                     "service principal token is nil. call Token() before Refresh()")) s')
        as (_ & _ & Hres & Hout & _); [vm_compute; reflexivity |]
  end.
  split; [exact Hres | exact Hout].
Defined.

Lemma NewAzureTokenSource_holds_no_token_witness :
  exists src,
    TokenSrc.NewAzureTokenSource issuing "tenant" "client" "https://api.example.org/"
    = (Some src, None) /\
    TokenSrc.spt src = None.
Proof.
  eexists. split; [reflexivity |].
  destruct (NewAzureTokenSource_holds_no_token issuing "tenant" "client"
              "https://api.example.org/") as [Hnew _].
  by destruct (Hnew _ None eq_refl) as (_ & Hnil & _).
Defined.

Lemma fetchTokens_stops_at_first_error_witness :
  exists t' calls',
    fetchTokens (TokenSrc.recording (TokenSrc.AzureTokenSource_TokenSource expiring example_URL))
      5 3 (fresh 0%nat, [])
    = Ret ([], Some (lib_error "refresh request failed. Status Code = '400'"))
        (t', calls') /\
    calls' = [TokenSrc.CallToken; TokenSrc.CallRefresh].
Proof.
  pose proof (fetchTokens_stops_at_first_error
                (TokenSrc.AzureTokenSource_TokenSource expiring example_URL)
                5 3 (fresh 0%nat) []) as Hstop.
  eexists _, _. split; [vm_compute; reflexivity |].
  edestruct Hstop as (_ & Hcalls); [vm_compute; reflexivity |].
  reflexivity.
Defined.

Lemma fetchTokens_one_token_at_least_witness :
  0 ≤ 1 /\
  exists t1,
    fetchTokens (TokenSrc.recording (TokenSrc.AzureTokenSource_TokenSource issuing example_URL))
      0 0 (fresh 0%nat, [])
    = Ret (["access"], None) (t1, [TokenSrc.CallToken]).
Proof.
  assert (0 ≤ 1) as Hnum by lia.
  split; [exact Hnum |]. eexists.
  apply (fetchTokens_one_token_at_least
           (TokenSrc.AzureTokenSource_TokenSource issuing example_URL)
           0 0 (fresh 0%nat) [] "access" _ Hnum).
  vm_compute. reflexivity.
Defined.

Lemma fetchTokens_overflow_witness :
  reliable constant_source /\ max_int ≤ max_int /\
  fetchTokens constant_source 100 max_int tt = OutOfFuel.
Proof.
  assert (reliable constant_source) as Hok.
  { intros []. split; by exists "token", tt. }
  assert (max_int ≤ max_int) as Hnum by lia.
  split; [exact Hok |]. split; [exact Hnum |].
  exact (fetchTokens_overflow constant_source 100 max_int tt Hok Hnum).
Defined.

Lemma main_starts_numTokens_runs_witness :
  ArlMain.init 2 = None /\
  exists tokens st',
    ArlMain.main_tokens issuing parse_any example_URL "tenant" "client" 2 1 (0%nat, [])
    = Ret (inr tokens) st' /\
    Z.of_nat (length (ArlMain.main_runs example_URL 8 tokens)) = 2.
Proof.
  split; [reflexivity |]. eexists _, _. split; [vm_compute; reflexivity |].
  match goal with
  | |- Z.of_nat (length (ArlMain.main_runs _ _ ?tokens)) = _ =>
      destruct (main_starts_numTokens_runs issuing parse_any example_URL "tenant" "client"
                  2 8 1 (0%nat, []) tokens (2%nat, ["To sign in, enter the code ABCD"])
                  eq_refl) as (_ & _ & Hlen & _); [vm_compute; reflexivity |]
  end.
  exact Hlen.
Defined.

Lemma main_fatal_messages_witness :
  ArlMain.main_tokens offline parse_none "not a url" "tenant" "client" 1 0 (tt, [])
  = Ret (inl (ArlMain.Fatalf "failed to parse the resource URL: %v" []
                (lib_error "parse: invalid URI for request"))) (tt, []).
Proof.
  destruct (main_fatal_messages offline parse_none "not a url" "tenant" "client" 1 0
              (tt, [])) as [Hparse _].
  exact (Hparse None _ eq_refl).
Defined.

Lemma main_panics_when_device_flow_fails_witness :
  ArlMain.main_tokens offline parse_any example_URL "tenant" "client" 1 0 (tt, [])
  = Panic nil_dereference.
Proof.
  exact (main_panics_when_device_flow_fails offline parse_any example_URL "tenant" "client"
           1 0 (tt, []) _ _ None _ tt eq_refl eq_refl eq_refl).
Defined.

(** ** The goroutines of [main] *)

Import ArlMain Coordination.

Section Returned.
Variables (URL token : string) (parallelRequests : Z).
Local Abbreviation step := (step URL token parallelRequests).
Local Abbreviation exec := (exec URL token parallelRequests).
Local Abbreviation reaches := (reaches URL token parallelRequests).

Lemma returned_inv_step l s s' : returned_inv s -> step l s = Some s' -> returned_inv s'.
Proof.
  unfold returned_inv. intros Hinv Hstep.
  step_cases Hstep; simpl in *; intros; simplify_eq; try (by auto);
    repeat match goal with
    | H : bool_decide _ = true |- _ => apply bool_decide_eq_true in H
    | H : bool_decide _ = false |- _ => apply bool_decide_eq_false in H
    end; try lia.
  - destruct (ratelimitReached s); simpl in *; auto.
  - specialize (Hinv ltac:(assumption) Hrun). lia.
Qed.

Lemma returned_inv_reaches aborted t0 s :
  reaches (Arl.init aborted t0) s -> returned_inv s.
Proof.
  intros [ls Hls].
  eapply (exec_invariant URL token parallelRequests returned_inv); [| | exact Hls].
  - intros. by eapply returned_inv_step.
  - intros H; discriminate H.
Qed.

End Returned.

Lemma count_fmap {A B} (p : B -> bool) (f : A -> B) (l : list A) :
  count p (f <$> l) = count (p ∘ f) l.
Proof. induction l as [| a l IH]; csimpl; [done | by rewrite IH]. Qed.

Section Coordinator.
Variables (resource : string) (parallelRequests : Z).
Local Abbreviation main_step := (main_step resource parallelRequests).
Local Abbreviation main_exec := (main_exec resource parallelRequests).
Local Abbreviation run_ok := (run_ok resource parallelRequests).
Local Abbreviation program_inv := (program_inv resource parallelRequests).

Lemma main_step_running e p p' : main_step e p = Some p' -> crashed p = None.
Proof.
  unfold ArlMain.main_step. case_bool_decide as Hc; [done |]. intros _.
  destruct (crashed p); [exfalso; apply Hc; eauto | done].
Qed.

Lemma main_step_unfold e p :
  crashed p = None ->
  main_step e p =
  match pc p with
  | MExit => None
  | _ =>
  match e with
  | Signal =>
      Some {| runs := runs p; pc := pc p; main_wg := main_wg p; interrupt := true;
              clock := clock p; main_log := main_log p; crashed := crashed p |}
  | Elapse d =>
      if bool_decide (0 ≤ d) then
        Some {| runs := on_state (fun s => set_now (now s + d) s) <$> runs p;
                pc := pc p; main_wg := main_wg p; interrupt := interrupt p;
                clock := clock p + d; main_log := main_log p; crashed := crashed p |}
      else None
  | Go =>
      match pc p with
      | MRange (token :: rest) =>
          Some {| runs := runs p ++ [{| run_token := token;
                                        run_state := Arl.init false (clock p);
                                        run_done := false |}];
                  pc := MRange rest; main_wg := main_wg p + 1;
                  interrupt := interrupt p; clock := clock p;
                  main_log := main_log p; crashed := crashed p |}
      | MRange [] =>
          Some {| runs := runs p; pc := MInterrupt; main_wg := main_wg p;
                  interrupt := interrupt p; clock := clock p;
                  main_log := main_log p; crashed := crashed p |}
      | _ => None
      end
  | Interrupted =>
      match pc p with
      | MInterrupt =>
          if interrupt p then
            Some {| runs := on_state (set_abort true) <$> runs p; pc := MWait;
                    main_wg := main_wg p; interrupt := false; clock := clock p;
                    main_log :=
                      main_log p ++ ["Waiting for rate limit probes to complete..."];
                    crashed := crashed p |}
          else None
      | _ => None
      end
  | Waited =>
      match pc p with
      | MWait =>
          if bool_decide (main_wg p = 0) then
            Some {| runs := runs p; pc := MExit; main_wg := main_wg p;
                    interrupt := interrupt p; clock := clock p;
                    main_log := main_log p; crashed := crashed p |}
          else None
      | _ => None
      end
  | Run k l =>
      match runs p !! k with
      | Some r =>
          if internal l then
            match step resource (run_token r) parallelRequests l (run_state r) with
            | Some s =>
                Some {| runs := <[k := on_state (fun _ => s) r]> (runs p); pc := pc p;
                        main_wg := main_wg p; interrupt := interrupt p;
                        clock := clock p; main_log := main_log p;
                        crashed := panicked s |}
            | None => None
            end
          else None
      | None => None
      end
  | Finished k =>
      match runs p !! k with
      | Some r =>
          match main (run_state r), run_done r with
          | DReturned, false =>
              Some {| runs := <[k := {| run_token := run_token r;
                                        run_state := run_state r;
                                        run_done := true |}]> (runs p);
                      pc := pc p; main_wg := main_wg p - 1;
                      interrupt := interrupt p; clock := clock p;
                      main_log := main_log p;
                      crashed := if bool_decide (main_wg p - 1 < 0)
                                 then Some negative_WaitGroup else None |}
          | _, _ => None
          end
      | None => None
      end
  end
  end.
Proof.
  intros Hc. unfold ArlMain.main_step. rewrite Hc.
  case_bool_decide as H; [by destruct H |]. done.
Qed.

Lemma main_exec_invariant (P : program -> Prop) :
  (forall e p p', P p -> main_step e p = Some p' -> P p') ->
  forall es p p', P p -> main_exec es p = Some p' -> P p'.
Proof.
  intros Hstep. induction es as [| e es IH]; intros p p' HP; simpl.
  - by intros [= <-].
  - destruct (main_step e p) as [p1 |] eqn:He; [| discriminate].
    apply IH. by eapply Hstep.
Qed.

Lemma program_inv_boot tokens t0 : program_inv tokens (boot tokens t0).
Proof. split; simpl; done. Qed.

Lemma run_ok_ext p p' r :
  aborting p' = aborting p -> (crashed p' = None -> crashed p = None) ->
  run_ok p r -> run_ok p' r.
Proof.
  intros Ha Hc [? ? ? ?]. split; auto; congruence.
Qed.

Lemma run_ok_tick p p' r d :
  0 ≤ d -> crashed p = None -> aborting p' = aborting p ->
  run_ok p r -> run_ok p' (on_state (fun s => set_now (now s + d) s) r).
Proof.
  intros Hd Hc Ha [Hab [t0 Hre] Hdn Hrn]. split; simpl; auto.
  - congruence.
  - exists t0. apply reaches_step with (l := Tick d) (s' := run_state r); [exact Hre |].
    rewrite step_unfold by auto. by rewrite bool_decide_eq_true_2.
Qed.

Lemma run_ok_abort p p' r :
  crashed p = None -> aborting p = false -> aborting p' = true ->
  run_ok p r -> run_ok p' (on_state (set_abort true) r).
Proof.
  intros Hc Ha Ha' [Hab [t0 Hre] Hdn Hrn]. split; simpl; auto.
  exists t0. apply reaches_step with (l := CloseAbort) (s' := run_state r); [exact Hre |].
  rewrite step_unfold by auto. by rewrite Hab, Ha.
Qed.

Lemma internal_keeps_abort token l s s' :
  internal l = true -> step resource token parallelRequests l s = Some s' ->
  abort s' = abort s.
Proof.
  intros Hl Hstep. step_cases Hstep; simpl in *; try done;
    repeat match goal with |- context [if ?b then _ else _] => destruct b end;
    simpl; congruence.
Qed.

Lemma internal_keeps_returned token l s s' :
  step resource token parallelRequests l s = Some s' ->
  main s = DReturned -> main s' = DReturned.
Proof.
  intros Hstep. step_cases Hstep; simpl in *; try done; try congruence;
    repeat match goal with |- context [if ?b then _ else _] => destruct b end;
    simpl; congruence.
Qed.

Lemma run_ok_step p p' r l s :
  internal l = true ->
  step resource (run_token r) parallelRequests l (run_state r) = Some s ->
  aborting p' = aborting p -> crashed p' = panicked s ->
  run_ok p r -> run_ok p' (on_state (fun _ => s) r).
Proof.
  intros Hl Hstep Ha Hc [Hab [t0 Hre] Hdn Hrn]. split; simpl.
  - rewrite (internal_keeps_abort _ _ _ _ Hl Hstep). congruence.
  - exists t0. eapply reaches_step; [exact Hre | exact Hstep].
  - intros Hd. eapply internal_keeps_returned; eauto.
  - congruence.
Qed.

Lemma pending_on_state f : pending ∘ on_state f = pending.
Proof. done. Qed.

Lemma started_on_state f (l : list run) : run_token <$> (on_state f <$> l) = run_token <$> l.
Proof. by rewrite <- list_fmap_compose. Qed.

Lemma program_inv_step tokens e p p' :
  program_inv tokens p -> main_step e p = Some p' -> program_inv tokens p'.
Proof.
  intros [Htok Hwg Hlog Hruns Hcr _] Hstep.
  pose proof (main_step_running _ _ _ Hstep) as Hc.
  rewrite main_step_unfold in Hstep by exact Hc.
  unfold started, remaining in Htok.
  assert (pc p <> MExit) as Hlive by (intros H; by rewrite H in Hstep).
  assert (match pc p with MExit => None | _ => Some p' end = Some p') as Hpc'
    by (by destruct (pc p)).
  destruct e.
  - (* Signal *)
    assert (p' = {| runs := runs p; pc := pc p; main_wg := main_wg p; interrupt := true;
              clock := clock p; main_log := main_log p; crashed := crashed p |}) as ->
      by (destruct (pc p); congruence).
    split; simpl; try done.
    eapply Forall_impl; [exact Hruns |]. intros r. by apply run_ok_ext.
  - (* Elapse *)
    destruct (bool_decide (0 ≤ d)) eqn:Hd; [| by destruct (pc p)].
    apply bool_decide_eq_true in Hd.
    assert (p' = {| runs := on_state (fun s => set_now (now s + d) s) <$> runs p;
                pc := pc p; main_wg := main_wg p; interrupt := interrupt p;
                clock := clock p + d; main_log := main_log p; crashed := crashed p |}) as ->
      by (destruct (pc p); congruence).
    split; simpl; try done.
    + unfold started, remaining. simpl. by rewrite started_on_state.
    + by rewrite count_fmap.
    + rewrite Forall_fmap. eapply Forall_impl; [exact Hruns |]. intros r.
      by apply run_ok_tick.
    + congruence.
  - (* Go *)
    unfold aborting in Hlog.
    destruct (pc p) as [[| token rest] | | |] eqn:Hpc; simplify_eq.
    + split; simpl.
      * done.
      * done.
      * done.
      * eapply Forall_impl; [exact Hruns |]. intros r. apply run_ok_ext; [| done].
        unfold aborting. simpl. by rewrite Hpc.
      * done.
      * done.
    + split; simpl.
      * unfold started, remaining. simpl.
        by rewrite fmap_app, <- app_assoc.
      * rewrite count_app. simpl. lia.
      * done.
      * rewrite Forall_app. split.
        -- eapply Forall_impl; [exact Hruns |]. intros r. apply run_ok_ext; [| done].
           unfold aborting. simpl. by rewrite Hpc.
        -- constructor; [| done]. split; simpl; try done.
           exists (clock p). apply reaches_refl.
      * congruence.
      * done.
  - (* Interrupted *)
    unfold aborting in Hlog.
    destruct (pc p) eqn:Hpc; simplify_eq.
    destruct (interrupt p); simplify_eq.
    split; simpl.
    + unfold started, remaining. simpl. by rewrite started_on_state.
    + by rewrite count_fmap.
    + by rewrite Hlog.
    + rewrite Forall_fmap. eapply Forall_impl; [exact Hruns |]. intros r.
      apply run_ok_abort; [done | |]; unfold aborting; simpl; by rewrite ?Hpc.
    + congruence.
    + done.
  - (* Waited *)
    unfold aborting in Hlog.
    destruct (pc p) eqn:Hpc; simplify_eq.
    case_bool_decide; simplify_eq.
    split; simpl.
    + done.
    + done.
    + done.
    + eapply Forall_impl; [exact Hruns |]. intros r. apply run_ok_ext; [| done].
      unfold aborting. simpl. by rewrite Hpc.
    + done.
    + done.
  - (* Run *)
    destruct (runs p !! k) as [r |] eqn:Hk; [| by destruct (pc p)].
    destruct (internal l) eqn:Hl; [| by destruct (pc p)].
    destruct (step resource (run_token r) parallelRequests l (run_state r)) as [s |] eqn:Hs;
      [| by destruct (pc p)].
    assert (p' = {| runs := <[k := on_state (fun _ => s) r]> (runs p); pc := pc p;
                        main_wg := main_wg p; interrupt := interrupt p;
                        clock := clock p; main_log := main_log p;
                        crashed := panicked s |}) as ->
      by (destruct (pc p); congruence).
    split; simpl.
    + unfold started, remaining. simpl. rewrite list_fmap_insert. simpl.
      rewrite list_insert_id; [done |]. by rewrite list_lookup_fmap, Hk.
    + pose proof (count_insert pending (runs p) k r (on_state (fun _ => s) r) Hk) as Hn.
      change (pending (on_state (fun _ => s) r)) with (pending r) in Hn. lia.
    + done.
    + apply Forall_insert.
      * eapply Forall_impl; [exact Hruns |]. intros r0 [Hab Hre Hdn Hrn].
        split; auto.
      * apply run_ok_step with (p := p) (l := l); auto.
        exact (Forall_lookup_1 _ _ _ _ Hruns Hk).
    + intros e He. exists (on_state (fun _ => s) r). split; [| done].
      apply list_elem_of_lookup. exists k. apply list_lookup_insert_eq.
      by eapply lookup_lt_Some.
    + done.
  - (* Finished *)
    destruct (runs p !! k) as [r |] eqn:Hk; [| by destruct (pc p)].
    destruct (main (run_state r)) eqn:Hm; try (by destruct (pc p)).
    destruct (run_done r) eqn:Hdone; [by destruct (pc p) |].
    pose proof (count_insert pending (runs p) k r
                  {| run_token := run_token r; run_state := run_state r;
                     run_done := true |} Hk) as Hn.
    unfold pending at 2 4 in Hn. simpl in Hn. rewrite Hdone in Hn. simpl in Hn.
    rewrite bool_decide_eq_false_2 in Hstep by lia.
    assert (p' = {| runs := <[k := {| run_token := run_token r;
                                        run_state := run_state r;
                                        run_done := true |}]> (runs p);
                      pc := pc p; main_wg := main_wg p - 1;
                      interrupt := interrupt p; clock := clock p;
                      main_log := main_log p;
                      crashed := None |}) as ->
      by (destruct (pc p); congruence).
    pose proof (Forall_lookup_1 _ _ _ _ Hruns Hk) as [Hab Hre Hdn Hrn].
    split; simpl.
    + unfold started, remaining. simpl. rewrite list_fmap_insert. simpl.
      rewrite list_insert_id; [done |]. by rewrite list_lookup_fmap, Hk.
    + lia.
    + done.
    + apply Forall_insert.
      * eapply Forall_impl; [exact Hruns |]. intros r0. apply run_ok_ext; [done |].
        simpl. congruence.
      * split; simpl; auto.
    + done.
    + done.
Qed.

Lemma program_inv_exec tokens t0 es p :
  main_exec es (boot tokens t0) = Some p -> program_inv tokens p.
Proof.
  apply (main_exec_invariant (program_inv tokens)).
  - intros. by eapply program_inv_step.
  - apply program_inv_boot.
Qed.

Lemma count_zero {A} (q : A -> bool) (l : list A) :
  count q l = 0%nat -> Forall (fun a => q a = false) l.
Proof.
  induction l as [| a l IH]; simpl; [by constructor |].
  destruct (q a) eqn:Hq; [lia |]. intros H. constructor; auto.
Qed.

(** X18.  [main] returns only after the interrupt, after a goroutine has been
    started for every token, and after every one of them has returned from
    [measureRatelimit] and called [wg.Done()].  No panic has occurred, each
    run saw [abort] closed, and each has handled exactly [parallelRequests]
    probes to the end of the loop body: a run that completes more panics,
    and one that completes fewer keeps [main] waiting. *)
Theorem main_returns_after_every_run tokens t0 es p :
  main_exec es (boot tokens t0) = Some p ->
  pc p = MExit ->
  started p = tokens /\
  main_log p = ["Waiting for rate limit probes to complete..."] /\
  crashed p = None /\
  Forall (fun r =>
    run_done r = true /\ main (run_state r) = DReturned /\
    abort (run_state r) = true /\ panicked (run_state r) = None /\
    completed (run_state r) = Z.max 0 parallelRequests) (runs p).
Proof.
  intros Hexec Hpc.
  destruct (program_inv_exec _ _ _ _ Hexec) as [Htok Hwg Hlog Hruns _ Hexit].
  destruct (Hexit Hpc) as [Hc Hzero].
  unfold remaining, aborting in *. rewrite Hpc in *. rewrite app_nil_r in Htok.
  split_and!; try done.
  assert (Forall (fun r => pending r = false) (runs p)) as Hall
    by (apply count_zero; lia).
  rewrite Forall_forall in *. intros r Hr.
  destruct (Hruns r Hr) as [Hab [t1 Hre] Hdn Hrn].
  specialize (Hall r Hr). unfold pending in Hall.
  destruct (run_done r); [| done].
  specialize (Hdn eq_refl). specialize (Hrn Hc).
  unfold aborting in Hab. rewrite Hpc in Hab.
  split_and!; try done.
  destruct (account_inv_reaches _ _ _ _ _ _ Hre) as [_ _ _ Hacc Hworkers].
  pose proof (returned_inv_reaches _ _ _ _ _ _ Hre Hdn Hrn) as Hw.
  specialize (Hacc Hrn). rewrite Hdn in Hworkers. lia.
Qed.

(** X19.  A run logs that it aborts only after [main] has logged that it waits
    for the probes to complete: [abort] is closed by [main] alone, and a
    run takes the abort case only when [abort] is closed. *)
Theorem abort_logged_only_after_interrupt tokens t0 es p r :
  main_exec es (boot tokens t0) = Some p ->
  r ∈ runs p ->
  LogAborting ∈ output (run_state r) ->
  aborting p = true /\
  main_log p = ["Waiting for rate limit probes to complete..."].
Proof.
  intros Hexec Hr Hline.
  destruct (program_inv_exec _ _ _ _ Hexec) as [_ _ Hlog Hruns _ _].
  rewrite Forall_forall in Hruns. destruct (Hruns r Hr) as [Hab [t1 Hre] _ _].
  assert (abort (run_state r) = true) as Habort.
  { destruct (run_inv_reaches _ _ _ _ _ _ Hre) as [Hloop Hlimit Hleft _ _].
    destruct (main (run_state r)) eqn:Hm; simpl in *;
      try (destruct (Hloop eq_refl) as [_ Hout]; rewrite Hout in Hline;
           by apply not_elem_of_nil in Hline).
    - destruct (Hlimit _ eq_refl) as [Hout _]. rewrite Hout in Hline.
      by apply not_elem_of_nil in Hline.
    - destruct (Hleft eq_refl) as (line & Hout & Hj). rewrite Hout in Hline.
      apply list_elem_of_singleton in Hline. by subst line.
    - destruct (Hleft eq_refl) as (line & Hout & Hj). rewrite Hout in Hline.
      apply list_elem_of_singleton in Hline. by subst line. }
  rewrite Habort in Hab. rewrite <- Hab in Hlog. done.
Qed.

Lemma quiet_step e p p' :
  e <> Signal -> interrupt p = false -> aborting p = false ->
  main_step e p = Some p' -> interrupt p' = false /\ aborting p' = false.
Proof.
  intros He Hi Ha Hstep.
  pose proof (main_step_running _ _ _ Hstep) as Hc.
  rewrite main_step_unfold in Hstep by exact Hc.
  unfold aborting in *. rewrite Hi in Hstep.
  destruct (pc p) as [[| token rest] | | |] eqn:Hpc; try done;
    destruct e; try done; repeat case_match; simplify_eq; simpl; by rewrite ?Hpc.
Qed.

(** X20.  [main] does not return on its own.  As long as no interrupt is
    delivered, [main] has not logged, has not closed [abort] and has not
    returned, whatever its runs of [measureRatelimit] have done: when all
    of them have reached the rate limit, [main] still waits.  Before the
    interrupt the program can stop in one way only, by a panic in one of
    its runs: that of [makechan], that of a [wg.Done()] too many, or that
    of the second close of [ratelimitReached]. *)
Theorem no_interrupt_no_exit tokens t0 es p :
  main_exec es (boot tokens t0) = Some p ->
  Signal ∉ es ->
  pc p <> MExit /\ pc p <> MWait /\ main_log p = [] /\
  Forall (fun r => abort (run_state r) = false) (runs p) /\
  (forall e, crashed p = Some e ->
     (e = makechan_size \/ e = negative_WaitGroup \/ e = close_of_closed_channel) /\
     exists r, r ∈ runs p /\ panicked (run_state r) = Some e).
Proof.
  intros Hexec Hquiet.
  assert (interrupt p = false /\ aborting p = false) as [_ Ha].
  { assert (interrupt (boot tokens t0) = false /\ aborting (boot tokens t0) = false)
      as Hboot by done.
    revert Hexec Hquiet Hboot. generalize (boot tokens t0).
    induction es as [| e es IH]; intros p0; simpl.
    - by intros [= <-].
    - destruct (main_step e p0) as [p1 |] eqn:He; [| done].
      intros Hexec Hquiet [Hi Hab]. apply (IH p1 Hexec).
      + intros Hin. apply Hquiet. by right.
      + eapply quiet_step; eauto. intros ->. apply Hquiet. by left. }
  destruct (program_inv_exec _ _ _ _ Hexec) as [_ _ Hlog Hruns Hcr _].
  rewrite Ha in Hlog. unfold aborting in Ha.
  split_and!; try done; try (intros Hpc; by rewrite Hpc in Ha).
  - eapply Forall_impl; [exact Hruns |]. intros r [Hab _ _ _].
    unfold aborting in Hab. destruct (pc p); congruence.
  - intros e He. destruct (Hcr e He) as (r & Hr & Hp).
    split; [| by exists r].
    rewrite Forall_forall in Hruns. destruct (Hruns r Hr) as [_ [t1 Hre] _ _].
    pose proof (panic_cause_reaches _ _ _ _ _ _ Hre) as Hcause.
    unfold panic_cause in Hcause. rewrite Hp in Hcause.
    destruct e; try done; by eauto.
Qed.

(** X21.  The counter of the WaitGroup of [main] is the number of goroutines that
    have not called [wg.Done()], so that call never panics: a panic of the
    program is a panic of one of its runs of [measureRatelimit]. *)
Theorem program_panics_come_from_runs tokens t0 es p :
  main_exec es (boot tokens t0) = Some p ->
  main_wg p = Z.of_nat (count pending (runs p)) /\
  forall e, crashed p = Some e ->
    exists r t1, r ∈ runs p /\ panicked (run_state r) = Some e /\
      reaches resource (run_token r) parallelRequests (Arl.init false t1) (run_state r).
Proof.
  intros Hexec.
  destruct (program_inv_exec _ _ _ _ Hexec) as [_ Hwg _ Hruns Hcr _].
  split; [done |]. intros e He.
  destruct (Hcr e He) as (r & Hr & Hp).
  rewrite Forall_forall in Hruns. destruct (Hruns r Hr) as [_ [t1 Hre] _ _].
  by exists r, t1.
Qed.

End Coordinator.

(** ** The program on examples *)

Lemma main_returns_after_every_run_witness :
  main_exec example_URL 1 measured (boot [example_token] 0) = Some (ended 1 measured) /\
  pc (ended 1 measured) = MExit /\
  started (ended 1 measured) = [example_token] /\
  Forall (fun r => completed (run_state r) = 1) (runs (ended 1 measured)).
Proof.
  assert (main_exec example_URL 1 measured (boot [example_token] 0)
          = Some (ended 1 measured)) as Hexec by (vm_compute; reflexivity).
  assert (pc (ended 1 measured) = MExit) as Hpc by (vm_compute; reflexivity).
  split; [exact Hexec |]. split; [exact Hpc |].
  destruct (main_returns_after_every_run example_URL 1 _ _ _ _ Hexec Hpc)
    as (Hstarted & _ & _ & Hruns).
  split; [exact Hstarted |].
  eapply Forall_impl; [exact Hruns |]. by intros r (_ & _ & _ & _ & Hdone).
Defined.

Lemma abort_logged_only_after_interrupt_witness :
  main_exec example_URL 1 interrupted_early (boot [example_token] 0)
  = Some (ended 1 interrupted_early) /\
  (exists r, r ∈ runs (ended 1 interrupted_early) /\ output (run_state r) = [LogAborting]) /\
  main_log (ended 1 interrupted_early) = ["Waiting for rate limit probes to complete..."].
Proof.
  assert (main_exec example_URL 1 interrupted_early (boot [example_token] 0)
          = Some (ended 1 interrupted_early)) as Hexec by (vm_compute; reflexivity).
  split; [exact Hexec |].
  assert (exists r, runs (ended 1 interrupted_early) = [r]
                    /\ output (run_state r) = [LogAborting]) as (r & Hruns & Hout)
    by (vm_compute; eexists; split; reflexivity).
  assert (r ∈ runs (ended 1 interrupted_early)) as Hr by (rewrite Hruns; by left).
  split; [exists r; split; [exact Hr | exact Hout] |].
  eapply (abort_logged_only_after_interrupt example_URL 1 _ _ _ _ r Hexec Hr).
  rewrite Hout. by left.
Defined.

Lemma no_interrupt_no_exit_witness :
  main_exec example_URL 1 overrun (boot [example_token] 0) = Some (ended 1 overrun) /\
  (Signal ∉ overrun) /\
  pc (ended 1 overrun) <> MExit /\
  crashed (ended 1 overrun) = Some negative_WaitGroup /\
  exists r, r ∈ runs (ended 1 overrun) /\
    panicked (run_state r) = Some negative_WaitGroup.
Proof.
  assert (main_exec example_URL 1 overrun (boot [example_token] 0)
          = Some (ended 1 overrun)) as Hexec by (vm_compute; reflexivity).
  assert (Signal ∉ overrun) as Hquiet.
  { vm_compute.
    repeat (apply not_elem_of_cons; split; [discriminate |]). apply not_elem_of_nil. }
  assert (crashed (ended 1 overrun) = Some negative_WaitGroup) as Hcr
    by (vm_compute; reflexivity).
  split; [exact Hexec |]. split; [exact Hquiet |].
  destruct (no_interrupt_no_exit example_URL 1 _ _ _ _ Hexec Hquiet)
    as (Hpc & _ & _ & _ & Hcrash).
  split; [exact Hpc |]. split; [exact Hcr |].
  destruct (Hcrash _ Hcr) as (_ & r & Hr & Hp).
  exists r. split; [exact Hr | exact Hp].
Defined.

Lemma program_panics_come_from_runs_witness :
  main_exec example_URL 1 overrun (boot [example_token] 0) = Some (ended 1 overrun) /\
  crashed (ended 1 overrun) = Some negative_WaitGroup /\
  main_wg (ended 1 overrun) = 1 /\
  exists r, r ∈ runs (ended 1 overrun) /\ panicked (run_state r) = Some negative_WaitGroup.
Proof.
  assert (main_exec example_URL 1 overrun (boot [example_token] 0)
          = Some (ended 1 overrun)) as Hexec by (vm_compute; reflexivity).
  assert (crashed (ended 1 overrun) = Some negative_WaitGroup) as Hcr
    by (vm_compute; reflexivity).
  split; [exact Hexec |]. split; [exact Hcr |].
  destruct (program_panics_come_from_runs example_URL 1 _ _ _ _ Hexec) as [Hwg Hfrom].
  split; [rewrite Hwg; vm_compute; reflexivity |].
  destruct (Hfrom _ Hcr) as (r & _ & Hr & Hp & _).
  exists r. split; [exact Hr | exact Hp].
Defined.
